(** * Needleman-Wunsch alignment over letter sequences

    A shallow embedding of [align/nw_letters.go] (method [NW.alignLetters])
    and the properties its specification states about it.

    Modelling conventions.
    - Go's [int] is taken at its 64-bit width: every sum and difference of
      scores is reduced by [wrap] to the two's-complement range.
    - Slice positions and lengths ([i], [j], [r], [c], [p]) are natural
      numbers; every slice access is bounds-checked and an access out of
      range is the run-time panic Go raises.
    - The function has three ways to end: a normal return, the error return
      [ErrMatrixNotSquare], and a panic.  The traceback [for] loop has no
      static bound, so it is run on fuel; [OutOfFuel] is the loop still
      running.
    - The debug rendering ([debugNeedle], [drawNWTableLetters]) only prints
      and is left out. *)

From Stdlib Require Import ZArith Lia List Ascii String Bool.
From stdpp Require Import base list.

Local Open Scope Z_scope.

(** ** Machine integers *)

Module GoInt.

Definition bits : Z := 64.
Definition modulus : Z := 2 ^ bits.
Definition half : Z := 2 ^ (bits - 1).

(** Two's-complement reduction to [-2^63, 2^63). *)
Definition wrap (z : Z) : Z := (z + half) mod modulus - half.

Definition add (x y : Z) : Z := wrap (x + y).
Definition sub (x y : Z) : Z := wrap (x - y).

Definition in_range (z : Z) : Prop := - half <= z < half.

(** The sum of a list of scores, computed as a Go loop [s += x] would. *)
Definition sum (l : list Z) : Z := fold_right add 0 l.

End GoInt.

(** ** Outcomes *)

(** The one error value the function returns (line 82). *)
Inductive error : Set := ErrMatrixNotSquare.

(** The two ways the function panics: a slice access out of range, and
    the [default] case of the switch (line 175) with its row and column. *)
Inductive panic : Set :=
| IndexOutOfRange
| NoPath (row col : nat).

Inductive res (A : Type) : Type :=
| Ret (x : A)
| Err (e : error)
| Panic (p : panic)
| OutOfFuel.

Arguments Ret {A} x.
Arguments Err {A} e.
Arguments Panic {A} p.
Arguments OutOfFuel {A}.

Definition bind {A B : Type} (m : res A) (k : A -> res B) : res B :=
  match m with
  | Ret x => k x
  | Err e => Err e
  | Panic p => Panic p
  | OutOfFuel => OutOfFuel
  end.

Notation "x <- m ;; k" := (bind m (fun x => k))
  (at level 100, m at next level, right associativity).

(** [for k := lo; k < lo+n; k++ { s = body k s }] *)
Fixpoint for_range {S : Type} (n lo : nat) (body : nat -> S -> res S) (s : S)
  : res S :=
  match n with
  | O => Ret s
  | Datatypes.S n' => s' <- body lo s ;; for_range n' (Datatypes.S lo) body s'
  end.

(** ** Data *)

(** [alphabet.Letter] is a byte. *)
Abbreviation Letter := ascii (only parsing).
Abbreviation Letters := (list ascii) (only parsing).

(** Modelled from the spec: the [alphabet] package is not part of the
    sources at hand.  An alphabet has a number of defined symbols and a
    symbol-to-index table that gives a non-negative index to a recognised
    symbol and a negative one to any other. *)
Record Alphabet := mkAlphabet {
  Len : nat;
  LetterIndex : Letter -> Z
}.

(** [type NW [][]int] *)
Abbreviation NW := (list (list Z)) (only parsing).

Abbreviation Table := (list Z) (only parsing).

(** Modelled from the spec: the constants [diag], [up] and [left] are
    declared in another file of the package.  Line 107 uses them as the
    three indices of a [[3]int] literal, so they are three different
    values; the traceback only compares them. *)
Inductive direction : Set := diag | up | left.

Definition direction_eqb (x y : direction) : bool :=
  match x, y with
  | diag, diag | up, up | left, left => true
  | _, _ => false
  end.

(** Modelled from the spec: [feature] and [featPair] are declared in
    another file of the package; a segment is a reference interval
    [[start, end)], a query interval and a score, the fields lines 136-140
    set ([end], [a] and [b] are spelt [end_], [a_] and [b_] here). *)
Record feature := mkFeature { start : nat; end_ : nat }.

Record featPair := mkPair { a_ : feature; b_ : feature; score_ : Z }.

(** Modelled from the spec: [max] is defined in another file of the
    package; it returns the greatest of the three candidate scores. *)
Definition max (d u l : Z) : Z := Z.max d (Z.max u l).

(** ** Checked accesses *)

Definition letter_at (s : Letters) (k : nat) : res Letter :=
  match s !! k with
  | Some l => Ret l
  | None => Panic IndexOutOfRange
  end.

Definition tget (table : Table) (p : nat) : res Z :=
  match table !! p with
  | Some v => Ret v
  | None => Panic IndexOutOfRange
  end.

Definition tset (table : Table) (p : nat) (v : Z) : res Table :=
  if (p <? length table)%nat then Ret (<[p := v]> table)
  else Panic IndexOutOfRange.

Definition row_at (a : NW) (x : Z) : res (list Z) :=
  if x <? 0 then Panic IndexOutOfRange
  else match a !! Z.to_nat x with
       | Some row => Ret row
       | None => Panic IndexOutOfRange
       end.

(** [a[x][y]] *)
Definition at2 (a : NW) (x y : Z) : res Z :=
  row <- row_at a x ;;
  if y <? 0 then Panic IndexOutOfRange
  else match row !! Z.to_nat y with
       | Some v => Ret v
       | None => Panic IndexOutOfRange
       end.

(** ** The function *)

(** [gap := len(a) - 1] *)
Definition gap_of (a : NW) : Z := Z.of_nat (length a) - 1.

(** Lines 80-84: every row must be as long as the matrix has rows. *)
Fixpoint check_rows (gap : Z) (rows : list (list Z)) : res unit :=
  match rows with
  | [] => Ret tt
  | row :: rows' =>
      if negb (Z.of_nat (length row) =? gap + 1) then Err ErrMatrixNotSquare
      else check_rows gap rows'
  end.

(** Lines 89-91. *)
Definition init_row (a : NW) (index : Letter -> Z) (qSeq : Letters)
    (c : nat) (table : Table) : res Table :=
  for_range (c - 1) 0 (fun j table =>
    t <- tget table j ;;
    q <- letter_at qSeq j ;;
    x <- at2 a (gap_of a) (index q) ;;
    tset table (j + 1) (GoInt.add t x)) table.

(** Lines 92-94. *)
Definition init_col (a : NW) (index : Letter -> Z) (rSeq : Letters)
    (r c : nat) (table : Table) : res Table :=
  for_range (r - 1) 1 (fun i table =>
    t <- tget table ((i - 1) * c) ;;
    l <- letter_at rSeq (i - 1) ;;
    x <- at2 a (index l) (gap_of a) ;;
    tset table (i * c) (GoInt.add t x)) table.

(** Lines 99-113: the body of the inner loop. *)
Definition fill_cell (a : NW) (index : Letter -> Z) (rSeq qSeq : Letters)
    (c i j : nat) (table : Table) : res Table :=
  rl <- letter_at rSeq (i - 1) ;;
  ql <- letter_at qSeq (j - 1) ;;
  let rVal := index rl in
  let qVal := index ql in
  if (rVal <? 0) || (qVal <? 0) then Ret table
  else
    let p := (i * c + j)%nat in
    td <- tget table (p - c - 1) ;;
    sd <- at2 a rVal qVal ;;
    tu <- tget table (p - c) ;;
    su <- at2 a rVal (gap_of a) ;;
    tl <- tget table (p - 1) ;;
    sl <- at2 a (gap_of a) qVal ;;
    tset table p (max (GoInt.add td sd) (GoInt.add tu su) (GoInt.add tl sl)).

(** Lines 97-115. *)
Definition fill (a : NW) (index : Letter -> Z) (rSeq qSeq : Letters)
    (r c : nat) (table : Table) : res Table :=
  for_range (r - 1) 1 (fun i table =>
    for_range (c - 1) 1 (fun j table =>
      fill_cell a index rSeq qSeq c i j table) table) table.

(** Lines 87-115: the score grid, row-major in a slice of [r*c] cells. *)
Definition build_table (a : NW) (index : Letter -> Z) (rSeq qSeq : Letters)
  : res Table :=
  let r := (length rSeq + 1)%nat in
  let c := (length qSeq + 1)%nat in
  let table := replicate (r * c) 0 in
  table <- init_row a index qSeq c table ;;
  table <- init_col a index rSeq r c table ;;
  fill a index rSeq qSeq r c table.

(** The variables of the traceback loop (lines 120-123). *)
Record tb_state := mkState {
  aln : list featPair;
  score : Z;
  last : direction;
  ti : nat;
  tj : nat;
  maxI : nat;
  maxJ : nat
}.

Definition tb_init (r c : nat) : tb_state :=
  {| aln := []; score := 0; last := diag;
     ti := r - 1; tj := c - 1; maxI := r - 1; maxJ := c - 1 |}.

(** The segment the open run would be closed as. *)
Definition open_segment (st : tb_state) : featPair :=
  {| a_ := {| start := ti st; end_ := maxI st |};
     b_ := {| start := tj st; end_ := maxJ st |};
     score_ := score st |}.

(** [if last != d { aln = append(aln, ...); maxI, maxJ = i, j; score = 0 }] *)
Definition close_unless (d : direction) (st : tb_state) : tb_state :=
  if negb (direction_eqb (last st) d) then
    {| aln := aln st ++ [open_segment st]; score := 0; last := last st;
       ti := ti st; tj := tj st; maxI := ti st; maxJ := tj st |}
  else st.

(** [score += delta], the step of direction [d], [last = d]. *)
Definition advance (d : direction) (delta : Z) (st : tb_state) : tb_state :=
  {| aln := aln st; score := GoInt.add (score st) delta; last := d;
     ti := match d with diag | up => ti st - 1 | left => ti st end;
     tj := match d with diag | left => tj st - 1 | up => tj st end;
     maxI := maxI st; maxJ := maxJ st |}.

Definition take (d : direction) (tp tpred : Z) (st : tb_state) : tb_state :=
  advance d (GoInt.sub tp tpred) (close_unless d st).

(** Lines 125-177: one iteration of the traceback loop. *)
Definition tb_body (a : NW) (index : Letter -> Z) (rSeq qSeq : Letters)
    (c : nat) (table : Table) (st : tb_state) : res tb_state :=
  let i := ti st in
  let j := tj st in
  rl <- letter_at rSeq (i - 1) ;;
  ql <- letter_at qSeq (j - 1) ;;
  let rVal := index rl in
  let qVal := index ql in
  if (rVal <? 0) || (qVal <? 0) then Ret st
  else
    let p := (i * c + j)%nat in
    tp <- tget table p ;;
    td <- tget table (p - c - 1) ;;
    sd <- at2 a rVal qVal ;;
    if tp =? GoInt.add td sd then Ret (take diag tp td st)
    else
      tu <- tget table (p - c) ;;
      su <- at2 a rVal (gap_of a) ;;
      if tp =? GoInt.add tu su then Ret (take up tp tu st)
      else
        tl <- tget table (p - 1) ;;
        sl <- at2 a (gap_of a) qVal ;;
        if tp =? GoInt.add tl sl then Ret (take left tp tl st)
        else Panic (NoPath i j).

(** The three [case] expressions of the switch at line 133, at cell
    [(i, j)]: [table[p-c-1] + a[rVal][qVal]], [table[p-c] + a[rVal][gap]] and
    [table[p-1] + a[gap][qVal]]. *)
Definition candidate (a : NW) (index : Letter -> Z) (rSeq qSeq : Letters)
    (c : nat) (table : Table) (i j : nat) (d : direction) : res Z :=
  rl <- letter_at rSeq (i - 1) ;;
  ql <- letter_at qSeq (j - 1) ;;
  let rVal := index rl in
  let qVal := index ql in
  let p := (i * c + j)%nat in
  match d with
  | diag =>
      t <- tget table (p - c - 1) ;; s <- at2 a rVal qVal ;; Ret (GoInt.add t s)
  | up =>
      t <- tget table (p - c) ;; s <- at2 a rVal (gap_of a) ;; Ret (GoInt.add t s)
  | left =>
      t <- tget table (p - 1) ;; s <- at2 a (gap_of a) qVal ;; Ret (GoInt.add t s)
  end.

(** Lines 124-178: [for i > 0 && j > 0 { ... }]. *)
Fixpoint traceback (fuel : nat) (a : NW) (index : Letter -> Z)
    (rSeq qSeq : Letters) (c : nat) (table : Table) (st : tb_state)
  : res tb_state :=
  if (0 <? ti st)%nat && (0 <? tj st)%nat then
    match fuel with
    | O => OutOfFuel
    | S fuel' =>
        st' <- tb_body a index rSeq qSeq c table st ;;
        traceback fuel' a index rSeq qSeq c table st'
    end
  else Ret st.

(** Lines 180-191: the open run, then the block before it. *)
Definition emit_tail (c : nat) (table : Table) (st : tb_state)
  : res (list featPair) :=
  let aln1 := aln st ++ [open_segment st] in
  if negb (ti st =? tj st)%nat then
    t <- tget table (ti st * c + tj st) ;;
    Ret (aln1 ++ [ {| a_ := {| start := 0; end_ := ti st |};
                      b_ := {| start := 0; end_ := tj st |};
                      score_ := t |} ])
  else Ret aln1.

(** [aln[i], aln[j] = aln[j], aln[i]] *)
Definition swap {A : Type} (l : list A) (i j : nat) : list A :=
  match l !! i, l !! j with
  | Some x, Some y => <[j := x]> (<[i := y]> l)
  | _, _ => l
  end.

(** Lines 193-195: [for i, j := 0, len(aln)-1; i < j; i, j = i+1, j-1].
    The loop runs at most [len(aln)] times, which is its fuel here. *)
Fixpoint reverse_loop {A : Type} (n i j : nat) (l : list A) : list A :=
  match n with
  | O => l
  | S n' =>
      if (i <? j)%nat then reverse_loop n' (i + 1) (j - 1) (swap l i j)
      else l
  end.

Definition reverse_in_place {A : Type} (l : list A) : list A :=
  reverse_loop (length l) 0 (length l - 1) l.

(** Lines 120-197: traceback from [st], the tail segments, the reversal. *)
Definition trace_from (fuel : nat) (a : NW) (index : Letter -> Z)
    (rSeq qSeq : Letters) (c : nat) (table : Table) (st : tb_state)
  : res (list featPair) :=
  st' <- traceback fuel a index rSeq qSeq c table st ;;
  aln <- emit_tail c table st' ;;
  Ret (reverse_in_place aln).

(** [func (a NW) alignLetters(rSeq, qSeq alphabet.Letters, alpha alphabet.Alphabet)] *)
Definition alignLetters (fuel : nat) (a : NW) (rSeq qSeq : Letters)
    (alpha : Alphabet) : res (list featPair) :=
  _ <- check_rows (gap_of a) a ;;
  let index := LetterIndex alpha in
  let r := (length rSeq + 1)%nat in
  let c := (length qSeq + 1)%nat in
  table <- build_table a index rSeq qSeq ;;
  trace_from fuel a index rSeq qSeq c table (tb_init r c).

(** ** Concrete inputs *)

Definition dna_index (l : Letter) : Z :=
  match l with
  | "A"%char => 0
  | "C"%char => 1
  | "G"%char => 2
  | "T"%char => 3
  | _ => -1
  end.

Definition DNA : Alphabet := {| Len := 4; LetterIndex := dna_index |}.

Definition letters (s : string) : Letters := list_ascii_of_string s.

(** Match [m], mismatch [x], gap [g] over four symbols. *)
Definition simple_matrix (m x g : Z) : NW :=
  [ [m; x; x; x; g];
    [x; m; x; x; g];
    [x; x; m; x; g];
    [x; x; x; m; g];
    [g; g; g; g; 0] ].

Definition seg (s1 e1 s2 e2 : nat) (sc : Z) : featPair :=
  {| a_ := {| start := s1; end_ := e1 |};
     b_ := {| start := s2; end_ := e2 |};
     score_ := sc |}.

Local Open Scope nat_scope.

(** ** Reading the grid and the matrix in statements *)

(** [G[i][j]] of a grid stored row-major with [c] columns. *)
Definition G_at (c : nat) (G : Table) (i j : nat) : Z :=
  default 0%Z (G !! (i * c + j)).

(** [M[x][y]] where the access is in range. *)
Definition M_at (a : NW) (x y : Z) : Z :=
  match at2 a x y with
  | Ret v => v
  | _ => 0%Z
  end.

(** [s[k]] where the access is in range. *)
Definition sym (s : Letters) (k : nat) : Letter := default Ascii.zero (s !! k).

(** Every row is as long as the matrix has rows. *)
Definition square (a : NW) : Prop :=
  Forall (fun row => length row = length a) a.

(** [x] indexes a row (and, in a square matrix, a column) of [a]. *)
Definition in_matrix (a : NW) (x : Z) : Prop :=
  (0 <= x < Z.of_nat (length a))%Z.

Definition valid_input (a : NW) (index : Letter -> Z) (rSeq qSeq : Letters)
  : Prop :=
  square a /\
  Forall (fun l => in_matrix a (index l)) rSeq /\
  Forall (fun l => in_matrix a (index l)) qSeq.

(** ** The recurrence *)

Section GridSpec.
Variables (a : NW) (index : Letter -> Z) (rSeq qSeq : Letters).

Local Abbreviation r := (length rSeq + 1).
Local Abbreviation c := (length qSeq + 1).
Local Abbreviation g := (gap_of a).

(** The recurrence of the specification, read as a function of the cell;
    the table the code builds is compared with it below. *)
Fixpoint row0 (j : nat) : Z :=
  match j with
  | 0 => 0%Z
  | S j' => GoInt.add (row0 j') (M_at a g (index (sym qSeq j')))
  end.

Fixpoint next_row (prev : nat -> Z) (rv : Z) (j : nat) : Z :=
  match j with
  | 0 => GoInt.add (prev 0) (M_at a rv g)
  | S j' =>
      let qv := index (sym qSeq j') in
      max (GoInt.add (prev j') (M_at a rv qv))
          (GoInt.add (prev (S j')) (M_at a rv g))
          (GoInt.add (next_row prev rv j') (M_at a g qv))
  end.

Fixpoint grid_spec (i : nat) : nat -> Z :=
  match i with
  | 0 => row0
  | S i' => next_row (grid_spec i') (index (sym rSeq i'))
  end.

(** The table holds the recurrence's value in the cells [D] marks and
    the initial zero elsewhere. *)
Definition agrees (D : nat -> nat -> bool) (t : Table) : Prop :=
  length t = r * c /\
  forall i j, i < r -> j < c ->
    t !! (i * c + j) = Some (if D i j then grid_spec i j else 0%Z).
End GridSpec.

(** The cells written once the outer loop is at row [k] and the inner
    loop at column [m]. *)
Definition filled (k m i j : nat) : bool :=
  (i =? 0) || (j =? 0) || (i <? k) || ((i =? k) && (j <? m)).

(** ** Segments and loop variables *)

(** Each segment starts, in both coordinates, where the one before it ends;
    the first starts at [(x, y)] and the last ends at [(x', y')]. *)
Fixpoint chained (x y : nat) (segs : list featPair) (x' y' : nat) : Prop :=
  match segs with
  | [] => x = x' /\ y = y'
  | s :: rest =>
      start (a_ s) = x /\ start (b_ s) = y /\
      x <= end_ (a_ s) /\ y <= end_ (b_ s) /\
      chained (end_ (a_ s)) (end_ (b_ s)) rest x' y'
  end.

(** Segment number [k] holds reference position [p]. *)
Definition covers_a (segs : list featPair) (k p : nat) : Prop :=
  exists s, segs !! k = Some s /\ start (a_ s) <= p < end_ (a_ s).

(** Segment number [k] holds query position [p]. *)
Definition covers_b (segs : list featPair) (k p : nat) : Prop :=
  exists s, segs !! k = Some s /\ start (b_ s) <= p < end_ (b_ s).

Definition scores (segs : list featPair) : list Z := map score_ segs.

Definition sumZ (l : list Z) : Z := fold_right Z.add 0%Z l.

(** The cell a step of direction [d] leads to. *)
Definition step_i (d : direction) (i : nat) : nat :=
  match d with diag | up => i - 1 | left => i end.

Definition step_j (d : direction) (j : nat) : nat :=
  match d with diag | left => j - 1 | up => j end.

(** What holds of the loop variables at the head of every iteration:
    the open run lies between the cell and the anchor, the segments closed
    so far chain from the anchor to the grid's last cell, and the scores
    closed, the open score and the cell's value add up to [final]. *)
Record tb_inv (c : nat) (table : Table) (R C : nat) (final : Z)
    (st : tb_state) : Prop := {
  inv_i : ti st <= maxI st <= R;
  inv_j : tj st <= maxJ st <= C;
  inv_chain : chained (maxI st) (maxJ st) (reverse (aln st)) R C;
  inv_sum :
    GoInt.wrap (sumZ (scores (aln st)) + score st
                + G_at c table (ti st) (tj st)) = final
}.




(** ** Outcomes without error or fuel *)

(** A computation that ends in a return or in a panic: no error return,
    no loop left running. *)
Definition plain {A : Type} (m : res A) : Prop :=
  (exists x, m = Ret x) \/ (exists p, m = Panic p).

(** ** Further inputs *)

(** The grid of "ACGT" against itself with match 1, mismatch 0, gap 0. *)
Definition acgt_grid : Table :=
  [0; 0; 0; 0; 0;
   0; 1; 1; 1; 1;
   0; 1; 2; 2; 2;
   0; 1; 2; 3; 3;
   0; 1; 2; 3; 4]%Z.

(** The loop variables after the first iteration on "AC" against "A" with
    match 1, mismatch 0, gap -1: one step up. *)
Definition ac_a_first : tb_state :=
  {| aln := [seg 2 2 1 1 0]; score := -1; last := up;
     ti := 1; tj := 1; maxI := 2; maxJ := 1 |}.

(** A square matrix for two symbols, with the four-symbol alphabet. *)
Definition two_symbol_matrix : NW := [[1; 0; 0]; [0; 1; 0]; [0; 0; 0]]%Z.

(** ** The pointer of a cell *)

(** The runes [pointerNWRuneLetters] returns, as code points: a blank,
    U+2B05, U+2B06 and U+2B09. *)
Definition rune_blank : Z := 32.
Definition rune_left : Z := 11013.
Definition rune_up : Z := 11014.
Definition rune_diag : Z := 11017.

(** Lines 49-76:
    [func pointerNWRuneLetters(rSeq, qSeq, i, j, table, index, a, c) rune]. *)
Definition pointerNWRuneLetters (rSeq qSeq : Letters) (i j : nat)
    (table : Table) (index : Letter -> Z) (a : NW) (c : nat) : res Z :=
  if (i =? 0) && (j =? 0) then Ret rune_blank
  else if i =? 0 then Ret rune_left
  else if j =? 0 then Ret rune_up
  else
    rl <- letter_at rSeq (i - 1) ;;
    ql <- letter_at qSeq (j - 1) ;;
    let rVal := index rl in
    let qVal := index ql in
    if (rVal <? 0)%Z || (qVal <? 0)%Z then Ret rune_blank
    else
      let p := i * c + j in
      tp <- tget table p ;;
      td <- tget table (p - c - 1) ;;
      sd <- at2 a rVal qVal ;;
      if (tp =? GoInt.add td sd)%Z then Ret rune_diag
      else
        tu <- tget table (p - c) ;;
        su <- at2 a rVal (gap_of a) ;;
        if (tp =? GoInt.add tu su)%Z then Ret rune_up
        else
          tl <- tget table (p - 1) ;;
          sl <- at2 a (gap_of a) qVal ;;
          if (tp =? GoInt.add tl sl)%Z then Ret rune_left
          else Ret rune_blank.

(** The rune drawn for a move of the traceback. *)
Definition arrow (d : direction) : Z :=
  match d with
  | diag => rune_diag
  | up => rune_up
  | left => rune_left
  end.

(** ** Shapes and scores of segments *)

(** The segment spans as many reference as query positions, or no query
    position, or no reference position. *)
Definition shaped (d : direction) (s : featPair) : Prop :=
  start (a_ s) <= end_ (a_ s) /\ start (b_ s) <= end_ (b_ s) /\
  match d with
  | diag => end_ (a_ s) - start (a_ s) = end_ (b_ s) - start (b_ s)
  | up => start (b_ s) = end_ (b_ s)
  | left => start (a_ s) = end_ (a_ s)
  end.

(** The score of the segment is what the grid gains from the cell where
    the segment starts to the cell where it ends. *)
Definition grid_delta (c : nat) (G : Table) (s : featPair) : Prop :=
  score_ s
  = GoInt.sub (G_at c G (end_ (a_ s)) (end_ (b_ s)))
      (G_at c G (start (a_ s)) (start (b_ s))).

(** The open run has the shape of the last move, and so has every segment
    closed so far the shape of some move. *)
Definition shapes_kept (st : tb_state) : Prop :=
  Forall (fun s => exists d, shaped d s) (aln st) /\
  shaped (last st) (open_segment st).

(** The open score is what the grid gains from the cell to the anchor, and
    every segment closed so far scores what the grid gains over it. *)
Definition deltas_kept (c : nat) (table : Table) (st : tb_state) : Prop :=
  Forall (grid_delta c table) (aln st) /\
  score st
  = GoInt.sub (G_at c table (maxI st) (maxJ st))
      (G_at c table (ti st) (tj st)).

(** A computation whose only panic is the access out of range. *)
Definition range_only {A : Type} (m : res A) : Prop :=
  forall p, m = Panic p -> p = IndexOutOfRange.

(** ** Alignments and their scores *)

(** An alignment of the first [i] reference symbols with the first [j]
    query symbols, read from its last column back to its first, is a list
    of moves: [diag] pairs the last symbols of both, [up] puts the last
    reference symbol against a gap, [left] the last query symbol.  Its
    score adds, over the integers, the matrix entries the three [case]
    expressions of the code read for these moves; a list that does not end
    at the origin is no alignment. *)
Fixpoint path_score (a : NW) (index : Letter -> Z) (rSeq qSeq : Letters)
    (i j : nat) (ms : list direction) : option Z :=
  match ms with
  | [] => if (i =? 0) && (j =? 0) then Some 0%Z else None
  | diag :: ms' =>
      match i, j with
      | S i', S j' =>
          option_map
            (Z.add (M_at a (index (sym rSeq i')) (index (sym qSeq j'))))
            (path_score a index rSeq qSeq i' j' ms')
      | _, _ => None
      end
  | up :: ms' =>
      match i with
      | S i' =>
          option_map (Z.add (M_at a (index (sym rSeq i')) (gap_of a)))
            (path_score a index rSeq qSeq i' j ms')
      | 0 => None
      end
  | left :: ms' =>
      match j with
      | S j' =>
          option_map (Z.add (M_at a (gap_of a) (index (sym qSeq j'))))
            (path_score a index rSeq qSeq i j' ms')
      | 0 => None
      end
  end.

(** Every entry of the matrix is within [B] of zero. *)
Definition entries_within (a : NW) (B : Z) : Prop :=
  Forall (Forall (fun v => (- B <= v <= B)%Z)) a.

(** ** Reverse complement ([exp/seq/nucleic/seq.go]) *)

Module Nucleic.

(** [revComp] writes the slice [s] in place while it reads the slice
    [complement]; the two may share cells.  Memory is one array of letters
    and a slice is a window on it: [len] cells from cell [base] on. *)
Record slice := mkSlice { base : nat; len : nat }.

(** [s[k]] for an [int] index: checked against the length of the slice. *)
Definition get (mem : Letters) (s : slice) (k : Z) : res Letter :=
  if (k <? 0)%Z || (Z.of_nat (len s) <=? k)%Z then Panic IndexOutOfRange
  else letter_at mem (base s + Z.to_nat k).

(** [s[k] = l] for an [int] index: checked against the length of the
    slice, as the read is.  A Go slice lies within its array ([within]
    below); a window that does not is refused here rather than extended. *)
Definition set (mem : Letters) (s : slice) (k : Z) (l : Letter)
  : res Letters :=
  if (k <? 0)%Z || (Z.of_nat (len s) <=? k)%Z then Panic IndexOutOfRange
  else if base s + Z.to_nat k <? length mem
       then Ret (<[base s + Z.to_nat k := l]> mem)
       else Panic IndexOutOfRange.

(** [complement[l]]: the table is a slice indexed by the letter's byte. *)
Definition complement_at (mem : Letters) (complement : slice) (l : Letter)
  : res Letter :=
  get mem complement (Z.of_nat (nat_of_ascii l)).

(** Lines 145-147: [for ; i < j; i, j = i+1, j-1] with its body
    [s[i], s[j] = complement[s[j]], complement[s[i]]]: both right-hand
    sides are read, then both cells are written. *)
Fixpoint revComp_loop (fuel : nat) (mem : Letters) (s complement : slice)
    (i j : Z) : res (Letters * Z * Z) :=
  if (i <? j)%Z then
    match fuel with
    | O => OutOfFuel
    | S fuel' =>
        sj <- get mem s j ;;
        cj <- complement_at mem complement sj ;;
        si <- get mem s i ;;
        ci <- complement_at mem complement si ;;
        mem1 <- set mem s i cj ;;
        mem2 <- set mem1 s j ci ;;
        revComp_loop fuel' mem2 s complement (i + 1) (j - 1)
    end
  else Ret (mem, i, j).

(** Lines 148-152: the letter in the middle, and the return. *)
Definition revComp_middle (mem : Letters) (s complement : slice) (i j : Z)
  : res Letters :=
  if (i =? j)%Z then
    si <- get mem s i ;;
    ci <- complement_at mem complement si ;;
    set mem s i ci
  else Ret mem.

(** Lines 143-153: [func (self *Seq) revComp(s, complement []alphabet.Letter)].
    The slice returned is [s] itself; the result here is the memory the
    call leaves.  The loop runs less than [len(s)] times, which is its fuel
    here. *)
Definition revComp (mem : Letters) (s complement : slice) : res Letters :=
  out <- revComp_loop (len s) mem s complement 0 (Z.of_nat (len s) - 1) ;;
  revComp_middle (fst (fst out)) s complement (snd (fst out)) (snd out).

(** The letters a slice shows. *)
Definition view (mem : Letters) (s : slice) : Letters :=
  firstn (len s) (skipn (base s) mem).

(** The slice lies within the memory. *)
Definition within (mem : Letters) (s : slice) : Prop :=
  base s + len s <= length mem.

(** The two slices share no cell. *)
Definition apart (s t : slice) : Prop :=
  base s + len s <= base t \/ base t + len t <= base s.

(** The table has an entry for the letter. *)
Definition covered (complement : slice) (l : Letter) : Prop :=
  nat_of_ascii l < len complement.

(** The entry of the table for the letter, where it has one. *)
Definition comp (mem : Letters) (complement : slice) (l : Letter) : Letter :=
  default l (mem !! (base complement + nat_of_ascii l)).

(** The memory with the letters [new] in place of those the slice shows. *)
Definition with_view (mem : Letters) (s : slice) (new : Letters) : Letters :=
  firstn (base s) mem ++ new ++ skipn (base s + len s) mem.

(** A table of 256 entries that swaps A with T and C with G. *)
Definition dna_complement : Letters :=
  map (fun n =>
         match ascii_of_nat n with
         | "A"%char => "T"%char
         | "T"%char => "A"%char
         | "C"%char => "G"%char
         | "G"%char => "C"%char
         | l => l
         end) (seq 0 256).

(** Three letters whose bytes are 2, 0 and 1. *)
Definition bytes_2_0_1 : Letters :=
  [ascii_of_nat 2; ascii_of_nat 0; ascii_of_nat 1].

End Nucleic.

(** ** Machine-integer facts *)

Module GoIntFacts.
Local Open Scope Z_scope.
Import GoInt.

Lemma modulus_pos : 0 < modulus.
Proof. reflexivity. Qed.

Lemma modulus_half : modulus = 2 * half.
Proof. reflexivity. Qed.

Lemma wrap_in_range z : in_range (wrap z).
Proof.
  unfold in_range, wrap.
  pose proof (Z.mod_pos_bound (z + half) modulus modulus_pos).
  rewrite modulus_half in *. lia.
Qed.

Lemma wrap_small z : in_range z -> wrap z = z.
Proof.
  unfold in_range, wrap. intros H.
  rewrite Z.mod_small; [lia | rewrite modulus_half; lia].
Qed.

Lemma wrap_add_l x y : wrap (wrap x + y) = wrap (x + y).
Proof.
  unfold wrap. f_equal.
  replace ((x + half) mod modulus - half + y + half)
    with ((x + half) mod modulus + y) by lia.
  rewrite Zplus_mod_idemp_l. f_equal. lia.
Qed.

Lemma wrap_add_r x y : wrap (x + wrap y) = wrap (x + y).
Proof. rewrite (Z.add_comm x), wrap_add_l. f_equal. lia. Qed.

Lemma sum_wrap l : sum l = wrap (fold_right Z.add 0 l).
Proof.
  induction l as [|x l IH]; [reflexivity|].
  simpl. rewrite IH. unfold add. apply wrap_add_r.
Qed.

End GoIntFacts.

(** ** Outcomes and loops *)

Lemma bind_Ret {A B : Type} (m : res A) (k : A -> res B) (y : B) :
  bind m k = Ret y -> exists x, m = Ret x /\ k x = Ret y.
Proof. destruct m; simpl; intros H; try discriminate. eauto. Qed.

Lemma bind_Err {A B : Type} (m : res A) (k : A -> res B) (e : error) :
  bind m k = Err e -> m = Err e \/ exists x, m = Ret x /\ k x = Err e.
Proof.
  destruct m; simpl; intros H; try discriminate; [eauto|].
  injection H as ->. now left.
Qed.

Lemma bind_OutOfFuel {A B : Type} (m : res A) (k : A -> res B) :
  bind m k = OutOfFuel ->
  m = OutOfFuel \/ exists x, m = Ret x /\ k x = OutOfFuel.
Proof. destruct m; simpl; intros H; try discriminate; eauto. Qed.

(** Splits a hypothesis [x <- m ;; k = Ret y] into its two runs. *)
Ltac inv_bind H :=
  let x := fresh "x" in
  let H1 := fresh H "a" in
  let H2 := fresh H "b" in
  apply bind_Ret in H; destruct H as (x & H1 & H2).

Section ForRange.
Context {S : Type}.
Variable I : nat -> S -> Prop.
Variable body : nat -> S -> res S.

(** A loop that returns has kept every invariant its body keeps. *)
Lemma for_range_inv n : forall lo s s',
  I lo s ->
  (forall k s1 s2, (lo <= k < lo + n)%nat ->
     I k s1 -> body k s1 = Ret s2 -> I (Datatypes.S k) s2) ->
  for_range n lo body s = Ret s' ->
  I (lo + n)%nat s'.
Proof.
  induction n as [|n IH]; intros lo s s' H0 Hstep Hrun; simpl in Hrun.
  - injection Hrun as <-. now rewrite Nat.add_0_r.
  - inv_bind Hrun.
    replace (lo + Datatypes.S n)%nat with (Datatypes.S lo + n)%nat by lia.
    apply IH with (s := x); [| |exact Hrunb].
    + apply Hstep with (s1 := s); [lia|assumption..].
    + intros k s1 s2 Hk. apply Hstep. lia.
Qed.

(** A loop whose body returns under the invariant returns. *)
Lemma for_range_ret n : forall lo s,
  I lo s ->
  (forall k s1, (lo <= k < lo + n)%nat -> I k s1 ->
     exists s2, body k s1 = Ret s2 /\ I (Datatypes.S k) s2) ->
  exists s', for_range n lo body s = Ret s' /\ I (lo + n)%nat s'.
Proof.
  induction n as [|n IH]; intros lo s H0 Hstep; simpl.
  - exists s. now rewrite Nat.add_0_r.
  - destruct (Hstep lo s) as (s2 & Hb & Hi); [lia|assumption|].
    rewrite Hb. simpl.
    replace (lo + Datatypes.S n)%nat with (Datatypes.S lo + n)%nat by lia.
    apply IH; [assumption|].
    intros k s1 Hk. apply Hstep. lia.
Qed.
End ForRange.

(** ** The in-place reversal *)

Section Reverse.
Context {A : Type}.
Implicit Types l xs m ys : list A.

Lemma swap_ends xs x m y ys :
  swap (xs ++ x :: m ++ y :: ys) (length xs) (length xs + length m + 1)
  = xs ++ y :: m ++ x :: ys.
Proof.
  unfold swap.
  rewrite (list_lookup_middle xs (m ++ y :: ys) x) by reflexivity.
  replace (xs ++ x :: m ++ y :: ys) with ((xs ++ x :: m) ++ y :: ys)
    by (rewrite <- app_assoc; reflexivity).
  rewrite (list_lookup_middle (xs ++ x :: m) ys y)
    by (rewrite length_app; simpl; lia).
  rewrite <- app_assoc. simpl.
  replace (<[length xs:=y]> (xs ++ x :: m ++ y :: ys))
    with (xs ++ y :: m ++ y :: ys).
  2:{ pose proof (insert_app_r xs (x :: m ++ y :: ys) 0 y) as E.
      rewrite Nat.add_0_r in E. now rewrite E. }
  replace (length xs + length m + 1)%nat
    with (length xs + Datatypes.S (length m + 0))%nat by lia.
  rewrite insert_app_r. simpl. rewrite insert_app_r. reflexivity.
Qed.

Lemma reverse_loop_middle n : forall xs m ys,
  (length m <= n)%nat ->
  reverse_loop n (length xs) (length xs + length m - 1) (xs ++ m ++ ys)
  = xs ++ reverse m ++ ys.
Proof.
  induction n as [|n IH]; intros xs m ys Hn.
  - destruct m; [reflexivity|simpl in Hn; lia].
  - simpl. destruct (Nat.ltb_spec (length xs) (length xs + length m - 1))
      as [Hlt|Hge].
    + destruct m as [|x m]; [simpl in Hlt; lia|].
      revert Hlt Hn. destruct m as [|y m' _] using rev_ind; intros Hlt Hn;
        [simpl in Hlt; lia|].
      assert (length (x :: m' ++ [y]) = length m' + 2)%nat as El
        by (simpl; rewrite length_app; simpl; lia).
      rewrite El in *.
      replace (length xs + (length m' + 2) - 1)%nat
        with (length xs + length m' + 1)%nat by lia.
      replace ((x :: m' ++ [y]) ++ ys) with (x :: m' ++ y :: ys)
        by (simpl; rewrite <- app_assoc; reflexivity).
      rewrite swap_ends.
      replace (xs ++ y :: m' ++ x :: ys) with ((xs ++ [y]) ++ m' ++ x :: ys)
        by (rewrite <- app_assoc; reflexivity).
      replace (length xs + 1)%nat with (length (xs ++ [y]))
        by (rewrite length_app; reflexivity).
      replace (length xs + length m' + 1 - 1)%nat
        with (length (xs ++ [y]) + length m' - 1)%nat
        by (rewrite length_app; simpl; lia).
      rewrite IH by lia.
      rewrite reverse_cons, reverse_snoc, <- !app_assoc. reflexivity.
    + destruct m as [|x [|x' m]]; [reflexivity..|simpl in Hge; lia].
Qed.

(** The swap loop computes the reversal of the list. *)
Lemma reverse_in_place_reverse l : reverse_in_place l = reverse l.
Proof.
  unfold reverse_in_place.
  pose proof (reverse_loop_middle (length l) [] l []) as H.
  simpl in H. rewrite !app_nil_r in H. apply H. lia.
Qed.
End Reverse.

(** ** Validation *)

Lemma check_rows_outcome g rows :
  check_rows g rows = Ret tt \/ check_rows g rows = Err ErrMatrixNotSquare.
Proof.
  induction rows as [|row rows IH]; simpl; [now left|].
  destruct (Z.of_nat (length row) =? g + 1)%Z; simpl; auto.
Qed.

Lemma check_rows_Ret g rows :
  check_rows g rows = Ret tt <->
  Forall (fun row => Z.of_nat (length row) = (g + 1)%Z) rows.
Proof.
  induction rows as [|row rows IH]; simpl.
  - split; [constructor|reflexivity].
  - destruct (Z.eqb_spec (Z.of_nat (length row)) (g + 1)) as [E|E]; simpl.
    + rewrite IH. split; [now constructor|]. now inversion 1.
    + split; [discriminate|]. inversion 1; contradiction.
Qed.

Lemma check_rows_square a : check_rows (gap_of a) a = Ret tt <-> square a.
Proof.
  rewrite check_rows_Ret. unfold square, gap_of.
  apply Forall_iff. intros row. lia.
Qed.

(** ** Matrix accesses *)

Lemma at2_Ret_inv a x y v :
  at2 a x y = Ret v ->
  exists row, (0 <= x)%Z /\ a !! Z.to_nat x = Some row /\
              (0 <= y)%Z /\ row !! Z.to_nat y = Some v.
Proof.
  unfold at2, row_at. intros H.
  destruct (Z.ltb_spec x 0); [discriminate|].
  destruct (a !! Z.to_nat x) as [row|] eqn:Er; [|discriminate].
  simpl in H. destruct (Z.ltb_spec y 0); [discriminate|].
  destruct (row !! Z.to_nat y) as [w|] eqn:Ey; [|discriminate].
  injection H as <-. eauto.
Qed.

Lemma at2_M_at a x y v : at2 a x y = Ret v -> M_at a x y = v.
Proof. unfold M_at. now intros ->. Qed.

Lemma at2_square a x y :
  square a -> in_matrix a x -> in_matrix a y ->
  at2 a x y = Ret (M_at a x y).
Proof.
  unfold in_matrix. intros Hsq Hx Hy.
  assert (exists v, at2 a x y = Ret v) as [v Hv].
  { unfold at2, row_at.
    destruct (Z.ltb_spec x 0); [lia|].
    destruct (lookup_lt_is_Some_2 a (Z.to_nat x)) as [row Er]; [lia|].
    rewrite Er. simpl.
    destruct (Z.ltb_spec y 0); [lia|].
    assert (length row = length a) as El.
    { unfold square in Hsq. rewrite Forall_lookup in Hsq. eauto. }
    destruct (lookup_lt_is_Some_2 row (Z.to_nat y)) as [w Ey]; [lia|].
    rewrite Ey. eauto. }
  rewrite Hv. f_equal. symmetry. now apply at2_M_at.
Qed.

Lemma at2_row_in_matrix a x y v : at2 a x y = Ret v -> in_matrix a x.
Proof.
  intros H. apply at2_Ret_inv in H as (row & Hx & Er & _).
  apply lookup_lt_Some in Er. unfold in_matrix. lia.
Qed.

Lemma at2_col_in_matrix a x y v :
  square a -> at2 a x y = Ret v -> in_matrix a y.
Proof.
  intros Hsq H. apply at2_Ret_inv in H as (row & Hx & Er & Hy & Ey).
  assert (length row = length a) as El.
  { unfold square in Hsq. rewrite Forall_lookup in Hsq. eauto. }
  apply lookup_lt_Some in Ey. unfold in_matrix. lia.
Qed.

Lemma gap_in_matrix a x : in_matrix a x -> in_matrix a (gap_of a).
Proof. unfold in_matrix, gap_of. lia. Qed.

Lemma letter_at_sym s k :
  k < length s -> letter_at s k = Ret (sym s k).
Proof.
  intros Hk. unfold letter_at, sym.
  destruct (lookup_lt_is_Some_2 s k Hk) as [l ->]. reflexivity.
Qed.

Lemma letter_at_Ret s k l : letter_at s k = Ret l -> s !! k = Some l.
Proof.
  unfold letter_at. destruct (s !! k); [|discriminate]. now intros [= ->].
Qed.

Lemma sym_Forall (P : Letter -> Prop) s k :
  Forall P s -> k < length s -> P (sym s k).
Proof.
  intros HP Hk. unfold sym.
  destruct (lookup_lt_is_Some_2 s k Hk) as [l El]. rewrite El. simpl.
  rewrite Forall_lookup in HP. eauto.
Qed.

Lemma tget_Ret table p v : tget table p = Ret v <-> table !! p = Some v.
Proof.
  unfold tget. destruct (table !! p); split; intros H;
    try discriminate; congruence.
Qed.

Lemma tset_Ret table p v :
  p < length table -> tset table p v = Ret (<[p := v]> table).
Proof.
  intros Hp. unfold tset. destruct (Nat.ltb_spec p (length table)); [reflexivity|lia].
Qed.

(** ** The score grid *)

Section Grid.
Variables (a : NW) (index : Letter -> Z) (rSeq qSeq : Letters).

Local Abbreviation r := (length rSeq + 1).
Local Abbreviation c := (length qSeq + 1).
Local Abbreviation g := (gap_of a).
Local Abbreviation grid_spec := (grid_spec a index rSeq qSeq).
Local Abbreviation agrees := (agrees a index rSeq qSeq).

Lemma cell_in_table i j : i < r -> j < c -> i * c + j < r * c.
Proof. intros Hi Hj. nia. Qed.

Lemma cell_inj i j i' j' :
  j < c -> j' < c -> i * c + j = i' * c + j' -> i = i' /\ j = j'.
Proof.
  intros Hj Hj' E.
  destruct (Nat.lt_trichotomy i i') as [H|[H|H]].
  - pose proof (Nat.mul_le_mono_r (S i) i' c H). lia.
  - subst i'. lia.
  - pose proof (Nat.mul_le_mono_r (S i') i c H). lia.
Qed.

Lemma agrees_ext D D' t :
  (forall i j, i < r -> j < c -> D i j = D' i j) ->
  agrees D t -> agrees D' t.
Proof.
  intros HD [Hlen Hc]. split; [exact Hlen|].
  intros i j Hi Hj. rewrite <- HD by assumption. now apply Hc.
Qed.

Lemma agrees_read D t i j :
  agrees D t -> i < r -> j < c -> D i j = true ->
  tget t (i * c + j) = Ret (grid_spec i j).
Proof.
  intros [_ Hc] Hi Hj HD. apply tget_Ret.
  rewrite Hc by assumption. now rewrite HD.
Qed.

Lemma agrees_write D D' t i0 j0 v :
  agrees D t -> i0 < r -> j0 < c -> v = grid_spec i0 j0 ->
  (forall i j, i < r -> j < c ->
     D' i j = if (i =? i0) && (j =? j0) then true else D i j) ->
  agrees D' (<[i0 * c + j0 := v]> t).
Proof.
  intros [Hlen Hc] Hi0 Hj0 -> HD. split; [now rewrite length_insert|].
  intros i j Hi Hj. rewrite HD by assumption.
  destruct (Nat.eqb_spec i i0) as [->|Ni]; simpl.
  - destruct (Nat.eqb_spec j j0) as [->|Nj].
    + apply list_lookup_insert_eq. rewrite Hlen. now apply cell_in_table.
    + rewrite list_lookup_insert_ne by lia. now apply Hc.
  - rewrite list_lookup_insert_ne; [now apply Hc|].
    intros E. apply cell_inj in E; [|assumption..]. lia.
Qed.

Lemma agrees_initial :
  agrees (fun i j => (i =? 0) && (j <=? 0)) (replicate (r * c) 0%Z).
Proof.
  split; [apply length_replicate|].
  intros i j Hi Hj. rewrite lookup_replicate_2 by now apply cell_in_table.
  destruct (Nat.eqb_spec i 0) as [->|]; [|reflexivity].
  destruct (Nat.leb_spec j 0); [|reflexivity].
  now replace j with 0 by lia.
Qed.

Section Valid.
Hypothesis Hvalid : valid_input a index rSeq qSeq.

Lemma valid_r k : k < length rSeq -> in_matrix a (index (sym rSeq k)).
Proof.
  destruct Hvalid as (_ & H & _). intros Hk.
  now apply (sym_Forall (fun l => in_matrix a (index l))).
Qed.

Lemma valid_q k : k < length qSeq -> in_matrix a (index (sym qSeq k)).
Proof.
  destruct Hvalid as (_ & _ & H). intros Hk.
  now apply (sym_Forall (fun l => in_matrix a (index l))).
Qed.

Lemma valid_gap_q k :
  k < length qSeq ->
  at2 a g (index (sym qSeq k)) = Ret (M_at a g (index (sym qSeq k))).
Proof.
  intros Hk. pose proof (valid_q k Hk) as Hq.
  apply at2_square; [apply Hvalid|now apply gap_in_matrix in Hq|exact Hq].
Qed.

Lemma valid_r_gap k :
  k < length rSeq ->
  at2 a (index (sym rSeq k)) g = Ret (M_at a (index (sym rSeq k)) g).
Proof.
  intros Hk. pose proof (valid_r k Hk) as Hr.
  apply at2_square; [apply Hvalid|exact Hr|now apply gap_in_matrix in Hr].
Qed.

Lemma valid_r_q k m :
  k < length rSeq -> m < length qSeq ->
  at2 a (index (sym rSeq k)) (index (sym qSeq m))
  = Ret (M_at a (index (sym rSeq k)) (index (sym qSeq m))).
Proof.
  intros Hk Hm. apply at2_square;
    [apply Hvalid|now apply valid_r|now apply valid_q].
Qed.

Lemma valid_recognised k m :
  k < length rSeq -> m < length qSeq ->
  (index (sym rSeq k) <? 0)%Z || (index (sym qSeq m) <? 0)%Z = false.
Proof.
  intros Hk Hm.
  pose proof (valid_r k Hk) as Hr. pose proof (valid_q m Hm) as Hq.
  unfold in_matrix in *.
  destruct (Z.ltb_spec (index (sym rSeq k)) 0); [lia|].
  destruct (Z.ltb_spec (index (sym qSeq m)) 0); [lia|reflexivity].
Qed.

(** Lines 89-91 fill row 0. *)
Lemma init_row_agrees :
  exists t, init_row a index qSeq c (replicate (r * c) 0%Z) = Ret t /\
            agrees (fun i j => i =? 0) t.
Proof.
  unfold init_row.
  destruct (for_range_ret
              (fun k t => agrees (fun i j => (i =? 0) && (j <=? k)) t)
              (fun j table =>
                 t <- tget table j ;;
                 q <- letter_at qSeq j ;;
                 x <- at2 a g (index q) ;;
                 tset table (j + 1) (GoInt.add t x))
              (c - 1) 0 (replicate (r * c) 0%Z))
    as (t & Hrun & Hinv).
  - apply agrees_initial.
  - intros k t Hk Hagree.
    pose proof (agrees_read _ t 0 k Hagree) as Hread. simpl in Hread.
    rewrite Hread; [|lia|lia|now rewrite Nat.leb_refl]. simpl.
    rewrite letter_at_sym by lia. simpl.
    rewrite valid_gap_q by lia. simpl.
    rewrite tset_Ret by (destruct Hagree as [-> _]; nia).
    eexists; split; [reflexivity|].
    replace (k + 1) with (0 * c + S k) by lia.
    eapply agrees_write; [exact Hagree|lia|lia|reflexivity|].
    intros i j _ _. cbv beta.
    destruct (Nat.eqb_spec i 0); simpl; [|reflexivity].
    destruct (Nat.eqb_spec j (S k)), (Nat.leb_spec j (S k)),
      (Nat.leb_spec j k); try reflexivity; lia.
  - exists t. split; [exact Hrun|].
    eapply agrees_ext; [|exact Hinv].
    intros i j _ Hj. simpl.
    destruct (Nat.leb_spec j (length qSeq + 1 - 1)); [|lia].
    now rewrite andb_true_r.
Qed.

(** Lines 92-94 fill column 0. *)
Lemma init_col_agrees t0 :
  agrees (fun i j => i =? 0) t0 ->
  exists t, init_col a index rSeq r c t0 = Ret t /\
            agrees (fun i j => (i =? 0) || (j =? 0)) t.
Proof.
  intros H0. unfold init_col.
  destruct (for_range_ret
              (fun k t =>
                 agrees (fun i j => (i =? 0) || ((j =? 0) && (i <? k))) t)
              (fun i table =>
                 t <- tget table ((i - 1) * c) ;;
                 l <- letter_at rSeq (i - 1) ;;
                 x <- at2 a (index l) g ;;
                 tset table (i * c) (GoInt.add t x))
              (r - 1) 1 t0)
    as (t & Hrun & Hinv).
  - eapply agrees_ext; [|exact H0].
    intros i j _ _. cbv beta.
    destruct (Nat.eqb_spec i 0) as [->|]; [reflexivity|].
    simpl. destruct (Nat.ltb_spec i 1); [lia|]. now rewrite andb_false_r.
  - intros k t Hk Hagree. destruct k as [|k']; [lia|].
    replace (S k' - 1) with k' by lia.
    pose proof (agrees_read _ t k' 0 Hagree) as Hread.
    rewrite Nat.add_0_r in Hread.
    rewrite Hread; [|lia|lia|]; simpl.
    2:{ destruct (Nat.ltb_spec k' (S k')); [|lia].
        now rewrite orb_true_r. }
    rewrite letter_at_sym by lia. simpl.
    rewrite valid_r_gap by lia. simpl.
    rewrite tset_Ret by (destruct Hagree as [-> _]; nia).
    eexists; split; [reflexivity|].
    replace (c + k' * c) with (S k' * c + 0) by lia.
    eapply agrees_write; [exact Hagree|lia|lia|reflexivity|].
    intros i j _ _. cbv beta.
    destruct (Nat.eqb_spec i 0), (Nat.eqb_spec i (S k')),
      (Nat.eqb_spec j 0), (Nat.ltb_spec i (S k')),
      (Nat.ltb_spec i (S (S k'))); simpl; try reflexivity; lia.
  - exists t. split; [exact Hrun|].
    eapply agrees_ext; [|exact Hinv].
    intros i j Hi _. simpl.
    destruct (Nat.ltb_spec i (S (length rSeq + 1 - 1))); [|lia].
    now rewrite andb_true_r.
Qed.

Lemma fill_cell_agrees k m t :
  1 <= k < r -> 1 <= m < c ->
  agrees (filled k m) t ->
  exists t', fill_cell a index rSeq qSeq c k m t = Ret t' /\
             agrees (filled k (S m)) t'.
Proof.
  intros Hk Hm Hagree.
  destruct k as [|k']; [lia|]. destruct m as [|m']; [lia|].
  unfold fill_cell.
  replace (S k' - 1) with k' by lia. replace (S m' - 1) with m' by lia.
  rewrite !letter_at_sym by lia. cbn [bind].
  rewrite valid_recognised by lia.
  replace (S k' * c + S m' - c - 1) with (k' * c + m') by lia.
  replace (S k' * c + S m' - c) with (k' * c + S m') by lia.
  replace (S k' * c + S m' - 1) with (S k' * c + m') by lia.
  rewrite (agrees_read _ t k' m' Hagree); [|lia|lia|]; cbn [bind].
  2:{ unfold filled. destruct (Nat.ltb_spec k' (S k')); [|lia].
      now rewrite orb_true_r. }
  rewrite valid_r_q by lia. cbn [bind].
  rewrite (agrees_read _ t k' (S m') Hagree); [|lia|lia|]; cbn [bind].
  2:{ unfold filled. destruct (Nat.ltb_spec k' (S k')); [|lia].
      now rewrite orb_true_r. }
  rewrite valid_r_gap by lia. cbn [bind].
  rewrite (agrees_read _ t (S k') m' Hagree); [|lia|lia|]; cbn [bind].
  2:{ unfold filled. rewrite Nat.eqb_refl.
      destruct (Nat.ltb_spec m' (S m')); [|lia].
      now rewrite orb_true_r. }
  rewrite valid_gap_q by lia. cbn [bind].
  rewrite tset_Ret by (destruct Hagree as [-> _]; apply cell_in_table; lia).
  eexists; split; [reflexivity|].
  eapply agrees_write; [exact Hagree|lia|lia|reflexivity|].
  intros i j _ _. unfold filled.
  destruct (Nat.eqb_spec i 0), (Nat.eqb_spec i (S k')),
    (Nat.eqb_spec j 0), (Nat.eqb_spec j (S m')),
    (Nat.ltb_spec i (S k')), (Nat.ltb_spec j (S m')),
    (Nat.ltb_spec j (S (S m'))); simpl; try reflexivity; lia.
Qed.

Lemma fill_row_agrees k t :
  1 <= k < r ->
  agrees (filled k 1) t ->
  exists t', for_range (c - 1) 1
               (fun j table => fill_cell a index rSeq qSeq c k j table) t
             = Ret t' /\
             agrees (filled (S k) 1) t'.
Proof.
  intros Hk Hagree.
  destruct (for_range_ret
              (fun m t => agrees (filled k m) t)
              (fun j table => fill_cell a index rSeq qSeq c k j table)
              (c - 1) 1 t Hagree)
    as (t' & Hrun & Hinv).
  - intros m t1 Hm H1. apply fill_cell_agrees; [lia|lia|exact H1].
  - exists t'. split; [exact Hrun|].
    eapply agrees_ext; [|exact Hinv].
    intros i j _ Hj. unfold filled.
    destruct (Nat.eqb_spec i 0), (Nat.eqb_spec i k),
      (Nat.eqb_spec i (S k)), (Nat.eqb_spec j 0),
      (Nat.ltb_spec i k), (Nat.ltb_spec i (S k)),
      (Nat.ltb_spec j (1 + (c - 1))), (Nat.ltb_spec j 1);
      simpl; try reflexivity; lia.
Qed.

(** Lines 97-115 fill the interior. *)
Lemma fill_agrees t0 :
  agrees (fun i j => (i =? 0) || (j =? 0)) t0 ->
  exists t, fill a index rSeq qSeq r c t0 = Ret t /\
            agrees (fun _ _ => true) t.
Proof.
  intros H0. unfold fill.
  destruct (for_range_ret
              (fun k t => agrees (filled k 1) t)
              (fun i table =>
                 for_range (c - 1) 1
                   (fun j table =>
                      fill_cell a index rSeq qSeq c i j table) table)
              (r - 1) 1 t0)
    as (t & Hrun & Hinv).
  - eapply agrees_ext; [|exact H0].
    intros i j _ _. cbv beta. unfold filled.
    destruct (Nat.eqb_spec i 0), (Nat.eqb_spec i 1), (Nat.eqb_spec j 0),
      (Nat.ltb_spec i 1), (Nat.ltb_spec j 1);
      simpl; try reflexivity; lia.
  - intros k t1 Hk H1. apply fill_row_agrees; [lia|exact H1].
  - exists t. split; [exact Hrun|].
    eapply agrees_ext; [|exact Hinv].
    intros i j Hi _. unfold filled.
    destruct (Nat.ltb_spec i (1 + (r - 1))); [|lia].
    now rewrite orb_true_r.
Qed.

(** On a valid input the grid is built, and it is the recurrence's. *)
Lemma build_table_total :
  exists G, build_table a index rSeq qSeq = Ret G /\
            agrees (fun _ _ => true) G.
Proof.
  unfold build_table.
  destruct init_row_agrees as (t1 & -> & H1). cbn [bind].
  destruct (init_col_agrees t1 H1) as (t2 & -> & H2). cbn [bind].
  exact (fill_agrees t2 H2).
Qed.
End Valid.

(** A grid that was built read every symbol's gap score: the symbols all
    index into the matrix. *)
Lemma init_row_valid t0 t :
  square a -> init_row a index qSeq c t0 = Ret t ->
  Forall (fun l => in_matrix a (index l)) qSeq.
Proof.
  intros Hsq Hrun. unfold init_row in Hrun.
  assert (forall j, j < 0 + (c - 1) -> in_matrix a (index (sym qSeq j)))
    as Hfin.
  2:{ apply Forall_lookup. intros j l El.
      pose proof (lookup_lt_Some _ _ _ El) as Hj.
      specialize (Hfin j ltac:(lia)). unfold sym in Hfin.
      now rewrite El in Hfin. }
  refine (for_range_inv
            (fun k _ => forall j, j < k -> in_matrix a (index (sym qSeq j)))
            _ _ _ _ _ _ _ Hrun).
  - intros j Hj. lia.
  - intros k s1 s2 _ IH Hbody j Hj.
    destruct (Nat.eq_dec j k) as [->|]; [|apply IH; lia].
    inv_bind Hbody. inv_bind Hbodyb. inv_bind Hbodybb.
    apply letter_at_Ret in Hbodyba. unfold sym. rewrite Hbodyba. simpl.
    eapply at2_col_in_matrix; eassumption.
Qed.

Lemma init_col_valid t0 t :
  init_col a index rSeq r c t0 = Ret t ->
  Forall (fun l => in_matrix a (index l)) rSeq.
Proof.
  intros Hrun. unfold init_col in Hrun.
  assert (forall i, i + 1 < 1 + (r - 1) -> in_matrix a (index (sym rSeq i)))
    as Hfin.
  2:{ apply Forall_lookup. intros i l El.
      pose proof (lookup_lt_Some _ _ _ El) as Hi.
      specialize (Hfin i ltac:(lia)). unfold sym in Hfin.
      now rewrite El in Hfin. }
  refine (for_range_inv
            (fun k _ => forall i, i + 1 < k -> in_matrix a (index (sym rSeq i)))
            _ _ _ _ _ _ _ Hrun).
  - intros i Hi. lia.
  - intros k s1 s2 Hk IH Hbody i Hi.
    destruct (Nat.eq_dec (i + 1) k) as [<-|]; [|apply IH; lia].
    inv_bind Hbody. inv_bind Hbodyb. inv_bind Hbodybb.
    replace (i + 1 - 1) with i in Hbodyba by lia.
    apply letter_at_Ret in Hbodyba. unfold sym. rewrite Hbodyba. simpl.
    eapply at2_row_in_matrix; eassumption.
Qed.

Lemma build_table_valid G :
  square a -> build_table a index rSeq qSeq = Ret G ->
  valid_input a index rSeq qSeq.
Proof.
  intros Hsq Hrun. unfold build_table in Hrun.
  inv_bind Hrun. inv_bind Hrunb.
  split; [exact Hsq|]. split.
  - eapply init_col_valid; eassumption.
  - eapply init_row_valid; eassumption.
Qed.

(** The built grid is the recurrence's, cell by cell. *)
Lemma build_table_grid_spec G :
  square a -> build_table a index rSeq qSeq = Ret G ->
  length G = r * c /\
  forall i j, i < r -> j < c -> G_at c G i j = grid_spec i j.
Proof.
  intros Hsq Hrun.
  pose proof (build_table_valid G Hsq Hrun) as Hvalid.
  destruct (build_table_total Hvalid) as (G' & Hrun' & Hlen & Hcells).
  assert (G' = G) as -> by congruence.
  split; [exact Hlen|].
  intros i j Hi Hj. unfold G_at. now rewrite Hcells.
Qed.
End Grid.

(** ** Segments *)

Lemma sumZ_app l1 l2 : sumZ (l1 ++ l2) = (sumZ l1 + sumZ l2)%Z.
Proof. induction l1 as [|x l1 IH]; simpl; [reflexivity|]. rewrite IH. lia. Qed.

Lemma sumZ_reverse l : sumZ (reverse l) = sumZ l.
Proof.
  induction l as [|x l IH]; [reflexivity|].
  rewrite reverse_cons, sumZ_app, IH. simpl. lia.
Qed.

Lemma scores_app s1 s2 : scores (s1 ++ s2) = scores s1 ++ scores s2.
Proof. apply map_app. Qed.

Lemma scores_reverse s : scores (reverse s) = reverse (scores s).
Proof.
  induction s as [|x s IH]; [reflexivity|].
  change (scores (x :: s)) with (score_ x :: scores s).
  rewrite !reverse_cons, scores_app, IH. reflexivity.
Qed.

Lemma chained_covers_a_from x y segs x' y' k p :
  chained x y segs x' y' -> covers_a segs k p -> x <= p.
Proof.
  revert x y k. induction segs as [|s rest IH]; simpl; intros x y k H Hc.
  - destruct Hc as (s & Hs & _). discriminate.
  - destruct H as (Hsx & _ & Hx & _ & Hrest).
    destruct Hc as (s' & Hs' & Hp). destruct k as [|k]; simpl in Hs'.
    + injection Hs' as <-. lia.
    + assert (end_ (a_ s) <= p); [|lia].
      apply (IH _ _ k Hrest). now exists s'.
Qed.

Lemma chained_covers_b_from x y segs x' y' k p :
  chained x y segs x' y' -> covers_b segs k p -> y <= p.
Proof.
  revert x y k. induction segs as [|s rest IH]; simpl; intros x y k H Hc.
  - destruct Hc as (s & Hs & _). discriminate.
  - destruct H as (_ & Hsy & _ & Hy & Hrest).
    destruct Hc as (s' & Hs' & Hp). destruct k as [|k]; simpl in Hs'.
    + injection Hs' as <-. lia.
    + assert (end_ (b_ s) <= p); [|lia].
      apply (IH _ _ k Hrest). now exists s'.
Qed.

(** A chain holds every reference position between its ends exactly once. *)
Lemma chained_cover_a x y segs x' y' p :
  chained x y segs x' y' -> x <= p < x' ->
  exists k, covers_a segs k p /\ forall k', covers_a segs k' p -> k' = k.
Proof.
  revert x y. induction segs as [|s rest IH]; simpl; intros x y H Hp.
  - lia.
  - destruct H as (Hsx & Hsy & Hx & Hy & Hrest).
    destruct (Nat.lt_ge_cases p (end_ (a_ s))) as [Hin|Hout].
    + exists 0. split; [exists s; split; [reflexivity|lia]|].
      intros [|k'] Hc; [reflexivity|]. exfalso.
      destruct Hc as (s' & Hs' & Hp'). simpl in Hs'.
      assert (end_ (a_ s) <= p); [|lia].
      apply (chained_covers_a_from _ _ _ _ _ k' p Hrest). now exists s'.
    + destruct (IH _ _ Hrest ltac:(lia)) as (k & Hk & Huniq).
      exists (S k). split.
      * destruct Hk as (s' & Hs' & Hp'). now exists s'.
      * intros [|k'] (s' & Hs' & Hp'); simpl in Hs'.
        -- injection Hs' as <-. lia.
        -- f_equal. apply Huniq. now exists s'.
Qed.

(** A chain holds every query position between its ends exactly once. *)
Lemma chained_cover_b x y segs x' y' p :
  chained x y segs x' y' -> y <= p < y' ->
  exists k, covers_b segs k p /\ forall k', covers_b segs k' p -> k' = k.
Proof.
  revert x y. induction segs as [|s rest IH]; simpl; intros x y H Hp.
  - lia.
  - destruct H as (Hsx & Hsy & Hx & Hy & Hrest).
    destruct (Nat.lt_ge_cases p (end_ (b_ s))) as [Hin|Hout].
    + exists 0. split; [exists s; split; [reflexivity|lia]|].
      intros [|k'] Hc; [reflexivity|]. exfalso.
      destruct Hc as (s' & Hs' & Hp'). simpl in Hs'.
      assert (end_ (b_ s) <= p); [|lia].
      apply (chained_covers_b_from _ _ _ _ _ k' p Hrest). now exists s'.
    + destruct (IH _ _ Hrest ltac:(lia)) as (k & Hk & Huniq).
      exists (S k). split.
      * destruct Hk as (s' & Hs' & Hp'). now exists s'.
      * intros [|k'] (s' & Hs' & Hp'); simpl in Hs'.
        -- injection Hs' as <-. lia.
        -- f_equal. apply Huniq. now exists s'.
Qed.

(** ** The traceback loop *)

Lemma direction_eqb_eq x y : direction_eqb x y = true <-> x = y.
Proof. destruct x, y; simpl; split; intros H; congruence. Qed.

Lemma direction_eqb_refl x : direction_eqb x x = true.
Proof. now destruct x. Qed.

#[global] Instance direction_eq_dec : EqDecision direction.
Proof. solve_decision. Defined.

Section Take.
Variables (d : direction) (tp tq : Z) (st : tb_state).

Lemma take_ti : ti (take d tp tq st) = step_i d (ti st).
Proof.
  unfold take, close_unless.
  destruct (direction_eqb (last st) d), d; reflexivity.
Qed.

Lemma take_tj : tj (take d tp tq st) = step_j d (tj st).
Proof.
  unfold take, close_unless.
  destruct (direction_eqb (last st) d), d; reflexivity.
Qed.

Lemma take_last : last (take d tp tq st) = d.
Proof. reflexivity. Qed.

Lemma take_same :
  last st = d ->
  aln (take d tp tq st) = aln st /\
  maxI (take d tp tq st) = maxI st /\
  maxJ (take d tp tq st) = maxJ st /\
  score (take d tp tq st) = GoInt.add (score st) (GoInt.sub tp tq).
Proof.
  intros <-. unfold take, close_unless.
  rewrite direction_eqb_refl. simpl. auto.
Qed.

Lemma take_turn :
  last st <> d ->
  aln (take d tp tq st) = aln st ++ [open_segment st] /\
  maxI (take d tp tq st) = ti st /\
  maxJ (take d tp tq st) = tj st /\
  score (take d tp tq st) = GoInt.add 0 (GoInt.sub tp tq).
Proof.
  intros Hne. unfold take, close_unless.
  destruct (direction_eqb (last st) d) eqn:E.
  - apply direction_eqb_eq in E. contradiction.
  - simpl. auto.
Qed.
End Take.

Section Traceback.
Variables (a : NW) (index : Letter -> Z) (rSeq qSeq : Letters).
Variables (c : nat) (table : Table).

Local Abbreviation body := (tb_body a index rSeq qSeq c table).
Local Abbreviation loop := (fun fuel => traceback fuel a index rSeq qSeq c table).

(** What an iteration that returns has done: nothing, on a symbol the
    alphabet does not know, or one step. *)
Lemma tb_body_Ret st st' :
  0 < ti st -> 0 < tj st ->
  body st = Ret st' ->
  exists rl ql,
    rSeq !! (ti st - 1) = Some rl /\ qSeq !! (tj st - 1) = Some ql /\
    (((index rl <? 0)%Z || (index ql <? 0)%Z = true /\ st' = st) \/
     ((index rl <? 0)%Z || (index ql <? 0)%Z = false /\
      exists d tp tq,
        tget table (ti st * c + tj st) = Ret tp /\
        tget table (step_i d (ti st) * c + step_j d (tj st)) = Ret tq /\
        st' = take d tp tq st)).
Proof.
  intros Hi Hj H. unfold tb_body in H.
  inv_bind H. inv_bind Hb.
  apply letter_at_Ret in Ha, Hba.
  exists x, x0. split; [exact Ha|]. split; [exact Hba|].
  destruct ((index x <? 0)%Z || (index x0 <? 0)%Z) eqn:Hrec.
  - left. split; [reflexivity|]. congruence.
  - right. split; [reflexivity|].
    inv_bind Hbb. inv_bind Hbbb. inv_bind Hbbbb.
    destruct (x1 =? GoInt.add x2 x3)%Z.
    { exists diag, x1, x2. split; [exact Hbba|]. split; [|congruence].
      simpl. rewrite <- Hbbba. f_equal.
      destruct (ti st); [lia|]. destruct (tj st); [lia|]. lia. }
    inv_bind Hbbbbb. inv_bind Hbbbbbb.
    destruct (x1 =? GoInt.add x4 x5)%Z.
    { exists up, x1, x4. split; [exact Hbba|]. split; [|congruence].
      simpl. rewrite <- Hbbbbba. f_equal.
      destruct (ti st); [lia|]. lia. }
    inv_bind Hbbbbbbb. inv_bind Hbbbbbbbb.
    destruct (x1 =? GoInt.add x6 x7)%Z; [|discriminate].
    exists left, x1, x6. split; [exact Hbba|]. split; [|congruence].
    simpl. rewrite <- Hbbbbbbba. f_equal. lia.
Qed.

Section Invariant.
Variables (R C : nat) (final : Z).

Local Abbreviation tb_inv := (tb_inv c table R C final).

Lemma G_at_tget i j v : tget table (i * c + j) = Ret v -> G_at c table i j = v.
Proof. intros H. apply tget_Ret in H. unfold G_at. now rewrite H. Qed.

Lemma step_i_le d i : step_i d i <= i.
Proof. destruct d; simpl; lia. Qed.

Lemma step_j_le d j : step_j d j <= j.
Proof. destruct d; simpl; lia. Qed.

Lemma tb_inv_take d tp tq st :
  tb_inv st ->
  tget table (ti st * c + tj st) = Ret tp ->
  tget table (step_i d (ti st) * c + step_j d (tj st)) = Ret tq ->
  tb_inv (take d tp tq st).
Proof.
  intros [Hi Hj Hchain Hsum] Hp Hq.
  apply G_at_tget in Hp, Hq. rewrite Hp in Hsum.
  pose proof (step_i_le d (ti st)). pose proof (step_j_le d (tj st)).
  destruct (decide (last st = d)) as [Hd|Hd].
  - destruct (take_same d tp tq st Hd) as (Ea & EI & EJ & Es).
    split; rewrite ?take_ti, ?take_tj, ?Ea, ?EI, ?EJ, ?Es, ?Hq;
      [lia|lia|assumption|].
    rewrite <- Hsum. unfold GoInt.add, GoInt.sub.
    replace (sumZ (scores (aln st)) + GoInt.wrap (score st + GoInt.wrap (tp - tq)) + tq)%Z
      with (sumZ (scores (aln st)) + tq + GoInt.wrap (score st + GoInt.wrap (tp - tq)))%Z
      by lia.
    rewrite GoIntFacts.wrap_add_r.
    replace (sumZ (scores (aln st)) + tq + (score st + GoInt.wrap (tp - tq)))%Z
      with (sumZ (scores (aln st)) + tq + score st + GoInt.wrap (tp - tq))%Z
      by lia.
    rewrite GoIntFacts.wrap_add_r. f_equal. lia.
  - destruct (take_turn d tp tq st Hd) as (Ea & EI & EJ & Es).
    split; rewrite ?take_ti, ?take_tj, ?Ea, ?EI, ?EJ, ?Es, ?Hq;
      [lia|lia| |].
    + rewrite reverse_snoc. simpl. repeat split; try lia. assumption.
    + rewrite <- Hsum. unfold GoInt.add, GoInt.sub.
      rewrite scores_app, sumZ_app. simpl.
      replace (sumZ (scores (aln st)) + (score st + 0)
               + GoInt.wrap (0 + GoInt.wrap (tp - tq)) + tq)%Z
        with (sumZ (scores (aln st)) + score st + tq
              + GoInt.wrap (0 + GoInt.wrap (tp - tq)))%Z by lia.
      rewrite GoIntFacts.wrap_add_r.
      replace (sumZ (scores (aln st)) + score st + tq
               + (0 + GoInt.wrap (tp - tq)))%Z
        with (sumZ (scores (aln st)) + score st + tq
              + GoInt.wrap (tp - tq))%Z by lia.
      rewrite GoIntFacts.wrap_add_r. f_equal. lia.
Qed.

Lemma tb_inv_body st st' :
  0 < ti st -> 0 < tj st ->
  tb_inv st -> body st = Ret st' -> tb_inv st'.
Proof.
  intros Hi Hj Hinv Hb.
  destruct (tb_body_Ret st st' Hi Hj Hb)
    as (rl & ql & _ & _ & [[_ ->]|[_ (d & tp & tq & Hp & Hq & ->)]]).
  - exact Hinv.
  - now apply tb_inv_take.
Qed.

(** The loop, when it returns, leaves the invariant and a cell on the
    grid's first row or first column. *)
Lemma traceback_inv fuel : forall st st',
  tb_inv st -> loop fuel st = Ret st' ->
  tb_inv st' /\ (ti st' = 0 \/ tj st' = 0).
Proof.
  induction fuel as [|fuel IH]; intros st st' Hinv Hrun; simpl in Hrun.
  - destruct (Nat.ltb_spec 0 (ti st)), (Nat.ltb_spec 0 (tj st));
      simpl in Hrun; try discriminate;
      injection Hrun as <-; (split; [assumption|lia]).
  - destruct (Nat.ltb_spec 0 (ti st)), (Nat.ltb_spec 0 (tj st));
      simpl in Hrun;
      try (injection Hrun as <-; (split; [assumption|lia])).
    inv_bind Hrun. apply (IH x); [|assumption].
    now apply (tb_inv_body st).
Qed.
(** Lines 180-195 close the chain at the origin and keep the sum. *)
Lemma emit_tail_spec st emitted :
  tb_inv st -> ti st = 0 \/ tj st = 0 ->
  G_at c table 0 0 = 0%Z ->
  emit_tail c table st = Ret emitted ->
  chained 0 0 (reverse emitted) R C /\
  GoInt.sum (scores (reverse emitted)) = final.
Proof.
  intros [Hi Hj Hchain Hsum] Hend H00 Hemit. unfold emit_tail in Hemit.
  rewrite GoIntFacts.sum_wrap, scores_reverse, sumZ_reverse.
  destruct (Nat.eqb_spec (ti st) (tj st)) as [E|E]; simpl in Hemit.
  - injection Hemit as <-.
    assert (ti st = 0 /\ tj st = 0) as [Ei Ej] by lia.
    rewrite Ei, Ej, H00 in Hsum.
    split.
    + rewrite reverse_snoc. simpl. rewrite Ei, Ej.
      repeat split; try lia. assumption.
    + rewrite <- Hsum, scores_app, sumZ_app. simpl. f_equal. lia.
  - inv_bind Hemit. injection Hemitb as <-.
    apply G_at_tget in Hemita. rewrite Hemita in Hsum.
    split.
    + rewrite !reverse_snoc. simpl. repeat split; try lia. assumption.
    + rewrite <- Hsum, !scores_app, !sumZ_app. simpl. f_equal. lia.
Qed.
End Invariant.
End Traceback.

(** ** The whole call *)

Lemma max_cases d u l :
  max d u l = d \/ max d u l = u \/ max d u l = l.
Proof. unfold max. lia. Qed.

Lemma grid_spec_in_range a index rSeq qSeq i j :
  GoInt.in_range (grid_spec a index rSeq qSeq i j).
Proof.
  revert j. induction i as [|i IHi]; intros j; simpl.
  - destruct j; simpl; [|apply GoIntFacts.wrap_in_range].
    replace 0%Z with (GoInt.wrap 0) by reflexivity.
    apply GoIntFacts.wrap_in_range.
  - induction j as [|j IHj]; simpl; [apply GoIntFacts.wrap_in_range|].
    match goal with
    | |- GoInt.in_range (max ?d ?u ?l) =>
        destruct (max_cases d u l) as [->|[->| ->]]
    end; apply GoIntFacts.wrap_in_range.
Qed.

(** What a call that returns segments went through. *)
Lemma alignLetters_Ret fuel a rSeq qSeq alpha segs :
  alignLetters fuel a rSeq qSeq alpha = Ret segs ->
  square a /\
  exists G st emitted,
    build_table a (LetterIndex alpha) rSeq qSeq = Ret G /\
    traceback fuel a (LetterIndex alpha) rSeq qSeq (length qSeq + 1) G
      (tb_init (length rSeq + 1) (length qSeq + 1)) = Ret st /\
    emit_tail (length qSeq + 1) G st = Ret emitted /\
    segs = reverse emitted.
Proof.
  intros H. unfold alignLetters in H.
  inv_bind H. destruct x. apply check_rows_square in Ha.
  split; [exact Ha|].
  inv_bind Hb. unfold trace_from in Hbb. inv_bind Hbb. inv_bind Hbbb.
  injection Hbbbb as <-. rewrite reverse_in_place_reverse.
  eauto 10.
Qed.

Lemma tb_init_inv a index rSeq qSeq G :
  square a -> build_table a index rSeq qSeq = Ret G ->
  tb_inv (length qSeq + 1) G (length rSeq) (length qSeq)
    (G_at (length qSeq + 1) G (length rSeq) (length qSeq))
    (tb_init (length rSeq + 1) (length qSeq + 1)).
Proof.
  intros Hsq Hb.
  destruct (build_table_grid_spec a index rSeq qSeq G Hsq Hb) as [_ Hg].
  unfold tb_init. split; simpl.
  - lia.
  - lia.
  - split; lia.
  - replace (length rSeq + 1 - 1) with (length rSeq) by lia.
    replace (length qSeq + 1 - 1) with (length qSeq) by lia.
    apply GoIntFacts.wrap_small. rewrite Hg by lia.
    apply grid_spec_in_range.
Qed.

(** C3. Score conservation: whenever the call returns segments, the scores
    of all of them, an unaligned leading block included, add up, in the
    program's integers, to the last cell [G[r][c]] of the grid built for
    the two sequences; and where their sum over the integers fits the
    program's integers, that sum is [G[r][c]]. *)
Theorem score_conservation fuel a rSeq qSeq alpha segs :
  alignLetters fuel a rSeq qSeq alpha = Ret segs ->
  exists G,
    build_table a (LetterIndex alpha) rSeq qSeq = Ret G /\
    GoInt.sum (scores segs)
    = G_at (length qSeq + 1) G (length rSeq) (length qSeq) /\
    (GoInt.in_range (sumZ (scores segs)) ->
     sumZ (scores segs)
     = G_at (length qSeq + 1) G (length rSeq) (length qSeq)).
Proof.
  intros H. apply alignLetters_Ret in H
    as (Hsq & G & st & emitted & Hb & Ht & He & ->).
  exists G. split; [exact Hb|].
  pose proof (tb_init_inv _ _ _ _ _ Hsq Hb) as H0.
  destruct (traceback_inv _ _ _ _ _ _ _ _ _ _ _ _ H0 Ht) as [Hinv Hend].
  destruct (build_table_grid_spec _ _ _ _ _ Hsq Hb) as [_ Hg].
  assert (GoInt.sum (scores (reverse emitted))
          = G_at (length qSeq + 1) G (length rSeq) (length qSeq)) as Hsum.
  { eapply emit_tail_spec; [exact Hinv|exact Hend| |exact He].
    rewrite Hg by lia. reflexivity. }
  split; [exact Hsum|].
  intros Hfit. rewrite <- Hsum, GoIntFacts.sum_wrap.
  symmetry. now apply GoIntFacts.wrap_small.
Qed.

(** C4. Segment partition: whenever the call returns segments, they are the
    reversal of the list in emission order, and read left to right each
    starts in both coordinates where the one before ends, from [(0, 0)] to
    [(r, c)] without ever going back; so every reference position of
    [[0, r)] and every query position of [[0, c)] lies in exactly one
    segment. *)
Theorem segment_partition fuel a rSeq qSeq alpha segs :
  alignLetters fuel a rSeq qSeq alpha = Ret segs ->
  (exists G st emitted,
     build_table a (LetterIndex alpha) rSeq qSeq = Ret G /\
     traceback fuel a (LetterIndex alpha) rSeq qSeq (length qSeq + 1) G
       (tb_init (length rSeq + 1) (length qSeq + 1)) = Ret st /\
     emit_tail (length qSeq + 1) G st = Ret emitted /\
     segs = reverse emitted) /\
  chained 0 0 segs (length rSeq) (length qSeq) /\
  (forall p, p < length rSeq ->
     exists k, covers_a segs k p /\ forall k', covers_a segs k' p -> k' = k) /\
  (forall p, p < length qSeq ->
     exists k, covers_b segs k p /\ forall k', covers_b segs k' p -> k' = k).
Proof.
  intros H. pose proof (alignLetters_Ret _ _ _ _ _ _ H) as [Hsq Hex].
  split; [exact Hex|].
  destruct Hex as (G & st & emitted & Hb & Ht & He & ->).
  pose proof (tb_init_inv _ _ _ _ _ Hsq Hb) as H0.
  destruct (traceback_inv _ _ _ _ _ _ _ _ _ _ _ _ H0 Ht) as [Hinv Hend].
  destruct (build_table_grid_spec _ _ _ _ _ Hsq Hb) as [_ Hg].
  assert (chained 0 0 (reverse emitted) (length rSeq) (length qSeq)) as Hch.
  { eapply emit_tail_spec; [exact Hinv|exact Hend| |exact He].
    rewrite Hg by lia. reflexivity. }
  split; [exact Hch|]. split; intros p Hp.
  - eapply chained_cover_a; [exact Hch|lia].
  - eapply chained_cover_b; [exact Hch|lia].
Qed.

(** ** Outcomes of the parts *)

Lemma plain_Ret {A : Type} (x : A) : plain (Ret x).
Proof. left. eauto. Qed.

Lemma plain_Panic {A : Type} p : plain (@Panic A p).
Proof. right. eauto. Qed.

Lemma plain_bind {A B : Type} (m : res A) (k : A -> res B) :
  plain m -> (forall x, plain (k x)) -> plain (bind m k).
Proof.
  intros [[x ->]|[p ->]] Hk; simpl; [apply Hk|apply plain_Panic].
Qed.

Lemma plain_not_Err {A : Type} (m : res A) e : plain m -> m <> Err e.
Proof. intros [[x ->]|[p ->]]; discriminate. Qed.

Lemma plain_not_OutOfFuel {A : Type} (m : res A) : plain m -> m <> OutOfFuel.
Proof. intros [[x ->]|[p ->]]; discriminate. Qed.

Lemma plain_letter_at s k : plain (letter_at s k).
Proof. unfold letter_at. destruct (s !! k); [apply plain_Ret|apply plain_Panic]. Qed.

Lemma plain_tget t p : plain (tget t p).
Proof. unfold tget. destruct (t !! p); [apply plain_Ret|apply plain_Panic]. Qed.

Lemma plain_tset t p v : plain (tset t p v).
Proof.
  unfold tset. destruct (p <? length t); [apply plain_Ret|apply plain_Panic].
Qed.

Lemma plain_at2 a x y : plain (at2 a x y).
Proof.
  unfold at2, row_at.
  destruct (x <? 0)%Z; [apply plain_Panic|].
  destruct (a !! Z.to_nat x); [|apply plain_Panic]. simpl.
  destruct (y <? 0)%Z; [apply plain_Panic|].
  destruct (_ !! Z.to_nat y); [apply plain_Ret|apply plain_Panic].
Qed.

(** Closes [plain] goals over the checked accesses. *)
Ltac plain_tac :=
  repeat first
    [ apply plain_Ret | apply plain_Panic
    | apply plain_letter_at | apply plain_tget | apply plain_tset
    | apply plain_at2
    | apply plain_bind; [|intros ?]
    | match goal with |- plain (if ?b then _ else _) => destruct b end
    | progress cbv zeta ].

Lemma plain_for_range {S : Type} (body : nat -> S -> res S) n :
  (forall k s, plain (body k s)) ->
  forall lo s, plain (for_range n lo body s).
Proof.
  intros Hb. induction n as [|n IH]; intros lo s; simpl.
  - apply plain_Ret.
  - apply plain_bind; [apply Hb|]. intros x. apply IH.
Qed.

Lemma plain_build_table a index rSeq qSeq :
  plain (build_table a index rSeq qSeq).
Proof.
  unfold build_table, init_row, init_col, fill. cbv zeta.
  apply plain_bind; [|intros t1; apply plain_bind; [|intros t2]].
  - apply plain_for_range. intros k s. plain_tac.
  - apply plain_for_range. intros k s. plain_tac.
  - apply plain_for_range. intros k s.
    apply plain_for_range. intros k' s'. unfold fill_cell. plain_tac.
Qed.

Lemma plain_tb_body a index rSeq qSeq c table st :
  plain (tb_body a index rSeq qSeq c table st).
Proof. unfold tb_body. plain_tac. Qed.

Lemma plain_emit_tail c table st : plain (emit_tail c table st).
Proof. unfold emit_tail. plain_tac. Qed.

(** The traceback gives no error return. *)
Lemma traceback_not_Err fuel a index rSeq qSeq c table e :
  forall st, traceback fuel a index rSeq qSeq c table st <> Err e.
Proof.
  induction fuel as [|fuel IH]; intros st; simpl;
    destruct ((0 <? ti st) && (0 <? tj st)); try discriminate.
  intros H. apply bind_Err in H as [H|(x & _ & H)].
  - exact (plain_not_Err _ _ (plain_tb_body _ _ _ _ _ _ _) H).
  - exact (IH _ H).
Qed.

Lemma trace_from_not_Err fuel a index rSeq qSeq c table st e :
  trace_from fuel a index rSeq qSeq c table st <> Err e.
Proof.
  unfold trace_from. intros H. apply bind_Err in H as [H|(x & _ & H)].
  - exact (traceback_not_Err _ _ _ _ _ _ _ _ _ H).
  - apply bind_Err in H as [H|(y & _ & H)]; [|discriminate].
    exact (plain_not_Err _ _ (plain_emit_tail _ _ _) H).
Qed.

(** More fuel does not change what a loop that returned returns. *)
Lemma traceback_mono a index rSeq qSeq c table fuel :
  forall st st' fuel',
    traceback fuel a index rSeq qSeq c table st = Ret st' ->
    fuel <= fuel' ->
    traceback fuel' a index rSeq qSeq c table st = Ret st'.
Proof.
  induction fuel as [|fuel IH]; intros st st' fuel' H Hle.
  - destruct fuel'; simpl in *;
      destruct ((0 <? ti st) && (0 <? tj st)); congruence.
  - destruct fuel' as [|fuel']; [lia|]. simpl in *.
    destruct ((0 <? ti st) && (0 <? tj st)); [|exact H].
    inv_bind H. rewrite Ha. simpl. apply IH; [exact Hb|lia].
Qed.

Lemma alignLetters_mono fuel fuel' a rSeq qSeq alpha segs :
  alignLetters fuel a rSeq qSeq alpha = Ret segs ->
  fuel <= fuel' ->
  alignLetters fuel' a rSeq qSeq alpha = Ret segs.
Proof.
  unfold alignLetters, trace_from. intros H Hle.
  inv_bind H. rewrite Ha. cbn [bind].
  inv_bind Hb. rewrite Hba. cbn [bind].
  inv_bind Hbb. rewrite (traceback_mono _ _ _ _ _ _ _ _ _ _ Hbba Hle).
  exact Hbbb.
Qed.

(** ** The switch of the traceback *)

Section Switch.
Variables (a : NW) (index : Letter -> Z) (rSeq qSeq : Letters).
Variables (c : nat) (table : Table).

Local Abbreviation body := (tb_body a index rSeq qSeq c table).
Local Abbreviation cand := (candidate a index rSeq qSeq c table).

(** What a candidate that has a value was computed from. *)
Lemma candidate_Ret i j d v :
  cand i j d = Ret v ->
  exists rl ql t s,
    letter_at rSeq (i - 1) = Ret rl /\ letter_at qSeq (j - 1) = Ret ql /\
    v = GoInt.add t s /\
    match d with
    | diag => tget table (i * c + j - c - 1) = Ret t /\
              at2 a (index rl) (index ql) = Ret s
    | up => tget table (i * c + j - c) = Ret t /\
            at2 a (index rl) (gap_of a) = Ret s
    | left => tget table (i * c + j - 1) = Ret t /\
              at2 a (gap_of a) (index ql) = Ret s
    end.
Proof.
  intros H. unfold candidate in H. inv_bind H. inv_bind Hb.
  cbv zeta in Hbb. exists x, x0.
  destruct d; inv_bind Hbb; inv_bind Hbbb; injection Hbbbb as <-; eauto 8.
Qed.

(** The diagonal candidate reads [a[rVal][qVal]]: where it has a value,
    both symbols are recognised. *)
Lemma candidate_diag_recognised i j v rl ql :
  cand i j diag = Ret v ->
  letter_at rSeq (i - 1) = Ret rl -> letter_at qSeq (j - 1) = Ret ql ->
  (index rl <? 0)%Z || (index ql <? 0)%Z = false.
Proof.
  intros H Hr Hq.
  apply candidate_Ret in H as (rl' & ql' & t & s & Hr' & Hq' & _ & _ & Hs).
  assert (rl' = rl) as -> by congruence.
  assert (ql' = ql) as -> by congruence.
  apply at2_Ret_inv in Hs as (_ & Hx & _ & Hy & _).
  destruct (Z.ltb_spec (index rl) 0), (Z.ltb_spec (index ql) 0);
    try reflexivity; lia.
Qed.

Section Cell.
Variables (st : tb_state) (tp : Z).
Hypothesis Hp : tget table (ti st * c + tj st) = Ret tp.

(** The first case that matches is the diagonal one. *)
Lemma body_diag :
  cand (ti st) (tj st) diag = Ret tp ->
  exists td, body st = Ret (take diag tp td st).
Proof.
  intros Hd. pose proof Hd as Hd'.
  apply candidate_Ret in Hd' as (rl & ql & t & s & Hr & Hq & Ev & Ht & Hs).
  exists t. unfold tb_body. rewrite Hr, Hq. cbn [bind]. cbv zeta.
  rewrite (candidate_diag_recognised _ _ _ _ _ Hd Hr Hq).
  rewrite Hp, Ht, Hs. cbn [bind].
  rewrite <- Ev, Z.eqb_refl. reflexivity.
Qed.

(** With the diagonal case out, the first that matches is the one up. *)
Lemma body_up vd :
  cand (ti st) (tj st) diag = Ret vd -> vd <> tp ->
  cand (ti st) (tj st) up = Ret tp ->
  exists tu, body st = Ret (take up tp tu st).
Proof.
  intros Hd Nd Hu. pose proof Hd as Hd'.
  apply candidate_Ret in Hd' as (rl & ql & t & s & Hr & Hq & Ev & Ht & Hs).
  apply candidate_Ret in Hu as (rl' & ql' & t' & s' & Hr' & Hq' & Ev' & Ht' & Hs').
  assert (rl' = rl) as -> by congruence.
  assert (ql' = ql) as -> by congruence.
  exists t'. unfold tb_body. rewrite Hr, Hq. cbn [bind]. cbv zeta.
  rewrite (candidate_diag_recognised _ _ _ _ _ Hd Hr Hq).
  rewrite Hp, Ht, Hs. cbn [bind].
  destruct (Z.eqb_spec tp (GoInt.add t s)) as [E|_]; [congruence|].
  rewrite Ht', Hs'. cbn [bind].
  rewrite <- Ev', Z.eqb_refl. reflexivity.
Qed.

(** With both out, the case to the left is the last one tried. *)
Lemma body_left vd vu :
  cand (ti st) (tj st) diag = Ret vd -> vd <> tp ->
  cand (ti st) (tj st) up = Ret vu -> vu <> tp ->
  cand (ti st) (tj st) left = Ret tp ->
  exists tl, body st = Ret (take left tp tl st).
Proof.
  intros Hd Nd Hu Nu Hl. pose proof Hd as Hd'.
  apply candidate_Ret in Hd' as (rl & ql & t & s & Hr & Hq & Ev & Ht & Hs).
  apply candidate_Ret in Hu as (rl' & ql' & t' & s' & Hr' & Hq' & Ev' & Ht' & Hs').
  assert (rl' = rl) as -> by congruence.
  assert (ql' = ql) as -> by congruence.
  apply candidate_Ret in Hl as (rl' & ql' & t2 & s2 & Hr2 & Hq2 & Ev2 & Ht2 & Hs2).
  assert (rl' = rl) as -> by congruence.
  assert (ql' = ql) as -> by congruence.
  exists t2. unfold tb_body. rewrite Hr, Hq. cbn [bind]. cbv zeta.
  rewrite (candidate_diag_recognised _ _ _ _ _ Hd Hr Hq).
  rewrite Hp, Ht, Hs. cbn [bind].
  destruct (Z.eqb_spec tp (GoInt.add t s)) as [E|_]; [congruence|].
  rewrite Ht', Hs'. cbn [bind].
  destruct (Z.eqb_spec tp (GoInt.add t' s')) as [E|_]; [congruence|].
  rewrite Ht2, Hs2. cbn [bind].
  rewrite <- Ev2, Z.eqb_refl. reflexivity.
Qed.

(** With all three out, the default case panics. *)
Lemma body_no_path vd vu vl :
  cand (ti st) (tj st) diag = Ret vd -> vd <> tp ->
  cand (ti st) (tj st) up = Ret vu -> vu <> tp ->
  cand (ti st) (tj st) left = Ret vl -> vl <> tp ->
  body st = Panic (NoPath (ti st) (tj st)).
Proof.
  intros Hd Nd Hu Nu Hl Nl. pose proof Hd as Hd'.
  apply candidate_Ret in Hd' as (rl & ql & t & s & Hr & Hq & Ev & Ht & Hs).
  apply candidate_Ret in Hu as (rl' & ql' & t' & s' & Hr' & Hq' & Ev' & Ht' & Hs').
  assert (rl' = rl) as -> by congruence.
  assert (ql' = ql) as -> by congruence.
  apply candidate_Ret in Hl as (rl' & ql' & t2 & s2 & Hr2 & Hq2 & Ev2 & Ht2 & Hs2).
  assert (rl' = rl) as -> by congruence.
  assert (ql' = ql) as -> by congruence.
  unfold tb_body. rewrite Hr, Hq. cbn [bind]. cbv zeta.
  rewrite (candidate_diag_recognised _ _ _ _ _ Hd Hr Hq).
  rewrite Hp, Ht, Hs. cbn [bind].
  destruct (Z.eqb_spec tp (GoInt.add t s)) as [E|_]; [congruence|].
  rewrite Ht', Hs'. cbn [bind].
  destruct (Z.eqb_spec tp (GoInt.add t' s')) as [E|_]; [congruence|].
  rewrite Ht2, Hs2. cbn [bind].
  destruct (Z.eqb_spec tp (GoInt.add t2 s2)) as [E|_]; [congruence|].
  reflexivity.
Qed.
End Cell.
End Switch.

(** C2. Tie-break order: at a cell the traceback visits, a diagonal
    candidate that reproduces the stored value is taken whatever the other
    two are, and with the diagonal one out a candidate up that reproduces it
    is taken whatever the left one is.  For the reference "AA", the query
    "A" and match 1, mismatch 0, gap 0, the diagonal and up candidates tie at
    the last cell, and the segments returned end with the diagonal step
    [1,2) x [0,1). *)
Theorem tie_break_order :
  (forall a index rSeq qSeq c table st tp,
     0 < ti st -> 0 < tj st ->
     tget table (ti st * c + tj st) = Ret tp ->
     (candidate a index rSeq qSeq c table (ti st) (tj st) diag = Ret tp ->
      exists st',
        tb_body a index rSeq qSeq c table st = Ret st' /\
        last st' = diag /\ ti st' = ti st - 1 /\ tj st' = tj st - 1) /\
     (forall vd,
        candidate a index rSeq qSeq c table (ti st) (tj st) diag = Ret vd ->
        vd <> tp ->
        candidate a index rSeq qSeq c table (ti st) (tj st) up = Ret tp ->
        exists st',
          tb_body a index rSeq qSeq c table st = Ret st' /\
          last st' = up /\ ti st' = ti st - 1 /\ tj st' = tj st)) /\
  (exists G,
     build_table (simple_matrix 1 0 0) dna_index (letters "AA") (letters "A")
     = Ret G /\
     candidate (simple_matrix 1 0 0) dna_index (letters "AA") (letters "A")
       2 G 2 1 diag = Ret (G_at 2 G 2 1) /\
     candidate (simple_matrix 1 0 0) dna_index (letters "AA") (letters "A")
       2 G 2 1 up = Ret (G_at 2 G 2 1) /\
     forall n,
       alignLetters (1 + n) (simple_matrix 1 0 0) (letters "AA") (letters "A")
         DNA
       = Ret [seg 0 1 0 0 0; seg 1 2 0 1 1]).
Proof.
  split.
  - intros a index rSeq qSeq c table st tp Hi Hj Hp. split.
    + intros Hd.
      destruct (body_diag a index rSeq qSeq c table st tp Hp Hd) as [td ->].
      eexists. split; [reflexivity|].
      rewrite take_last, take_ti, take_tj. auto.
    + intros vd Hd Nd Hu.
      destruct (body_up a index rSeq qSeq c table st tp Hp vd Hd Nd Hu)
        as [tu ->].
      eexists. split; [reflexivity|].
      rewrite take_last, take_ti, take_tj. auto.
  - exists [0; 0; 0; 1; 0; 1]%Z. repeat split; try reflexivity.
    intros n. apply (alignLetters_mono 1); [reflexivity|lia].
Qed.

Lemma tie_break_order_witness :
  exists st',
    tb_body (simple_matrix 1 0 0) dna_index (letters "AA") (letters "A") 2
      [0; 0; 0; 1; 0; 1]%Z (tb_init 3 2) = Ret st' /\
    last st' = diag /\ ti st' = 2 - 1 /\ tj st' = 1 - 1.
Proof.
  apply (proj1 (proj1 tie_break_order
                  (simple_matrix 1 0 0) dna_index (letters "AA") (letters "A")
                  2 [0; 0; 0; 1; 0; 1]%Z (tb_init 3 2) 1%Z
                  ltac:(simpl; lia) ltac:(simpl; lia) eq_refl)).
  reflexivity.
Defined.

(** C8. No path is fatal: in a traceback state where the three candidates
    have values and none is the stored value, the iteration panics, so does
    the rest of the call on any fuel, and no fuel makes it return
    segments. *)
Theorem no_path_is_fatal a index rSeq qSeq c table st tp vd vu vl :
  0 < ti st -> 0 < tj st ->
  tget table (ti st * c + tj st) = Ret tp ->
  candidate a index rSeq qSeq c table (ti st) (tj st) diag = Ret vd ->
  vd <> tp ->
  candidate a index rSeq qSeq c table (ti st) (tj st) up = Ret vu ->
  vu <> tp ->
  candidate a index rSeq qSeq c table (ti st) (tj st) left = Ret vl ->
  vl <> tp ->
  tb_body a index rSeq qSeq c table st = Panic (NoPath (ti st) (tj st)) /\
  forall fuel,
    trace_from (S fuel) a index rSeq qSeq c table st
    = Panic (NoPath (ti st) (tj st)) /\
    forall segs, trace_from fuel a index rSeq qSeq c table st <> Ret segs.
Proof.
  intros Hi Hj Hp Hd Nd Hu Nu Hl Nl.
  pose proof (body_no_path a index rSeq qSeq c table st tp Hp
                vd vu vl Hd Nd Hu Nu Hl Nl) as Hb.
  split; [exact Hb|].
  assert (forall fuel, trace_from (S fuel) a index rSeq qSeq c table st
                       = Panic (NoPath (ti st) (tj st))) as Hpanic.
  { intros fuel. unfold trace_from. simpl.
    destruct (Nat.ltb_spec 0 (ti st)); [|lia].
    destruct (Nat.ltb_spec 0 (tj st)); [|lia].
    simpl. rewrite Hb. reflexivity. }
  intros fuel. split; [apply Hpanic|].
  intros segs. destruct fuel as [|fuel].
  - unfold trace_from. simpl.
    destruct (Nat.ltb_spec 0 (ti st)); [|lia].
    destruct (Nat.ltb_spec 0 (tj st)); [|lia].
    discriminate.
  - rewrite Hpanic. discriminate.
Qed.

Lemma no_path_is_fatal_witness :
  tb_body (simple_matrix 1 0 0) dna_index (letters "A") (letters "A") 2
    [0; 0; 0; 5]%Z (tb_init 2 2) = Panic (NoPath 1 1) /\
  forall fuel,
    trace_from (S fuel) (simple_matrix 1 0 0) dna_index (letters "A")
      (letters "A") 2 [0; 0; 0; 5]%Z (tb_init 2 2) = Panic (NoPath 1 1) /\
    forall segs,
      trace_from fuel (simple_matrix 1 0 0) dna_index (letters "A")
        (letters "A") 2 [0; 0; 0; 5]%Z (tb_init 2 2) <> Ret segs.
Proof.
  apply (no_path_is_fatal
           (simple_matrix 1 0 0) dna_index (letters "A") (letters "A") 2
           [0; 0; 0; 5]%Z (tb_init 2 2) 5%Z 1%Z 0%Z 0%Z);
    first [reflexivity | discriminate | simpl; lia].
Defined.

Lemma score_conservation_witness :
  exists G,
    build_table (simple_matrix 1 0 (-1)) (LetterIndex DNA) (letters "AC")
      (letters "A") = Ret G /\
    GoInt.sum (scores [seg 0 1 0 1 1; seg 1 2 1 1 (-1); seg 2 2 1 1 0])
    = G_at (length (letters "A") + 1) G (length (letters "AC"))
        (length (letters "A")) /\
    (GoInt.in_range
       (sumZ (scores [seg 0 1 0 1 1; seg 1 2 1 1 (-1); seg 2 2 1 1 0])) ->
     sumZ (scores [seg 0 1 0 1 1; seg 1 2 1 1 (-1); seg 2 2 1 1 0])
     = G_at (length (letters "A") + 1) G (length (letters "AC"))
         (length (letters "A"))).
Proof.
  apply (score_conservation 3 (simple_matrix 1 0 (-1)) (letters "AC")
           (letters "A") DNA).
  reflexivity.
Defined.

Lemma segment_partition_witness :
  chained 0 0 [seg 0 1 0 1 1; seg 1 2 1 1 (-1); seg 2 2 1 1 0]
    (length (letters "AC")) (length (letters "A")).
Proof.
  apply (segment_partition 3 (simple_matrix 1 0 (-1)) (letters "AC")
           (letters "A") DNA).
  reflexivity.
Defined.

(** ** The first move *)

(** Against C6 as stated: the first move of "ACGT" against itself is a
    diagonal one and closes nothing, for [last] starts as [diag]. *)
Lemma first_move_always_closes_counterexample :
  ~ (forall a index rSeq qSeq table st',
       0 < length rSeq -> 0 < length qSeq ->
       tb_body a index rSeq qSeq (length qSeq + 1) table
         (tb_init (length rSeq + 1) (length qSeq + 1)) = Ret st' ->
       st' <> tb_init (length rSeq + 1) (length qSeq + 1) ->
       (forall d, last (tb_init (length rSeq + 1) (length qSeq + 1)) <> d) /\
       aln st'
       = [seg (length rSeq) (length rSeq) (length qSeq) (length qSeq) 0]).
Proof.
  intros H.
  destruct (H (simple_matrix 1 0 0) dna_index (letters "ACGT")
              (letters "ACGT") acgt_grid
              {| aln := []; score := 1; last := diag;
                 ti := 3; tj := 3; maxI := 4; maxJ := 4 |})
    as [_ Haln]; [simpl; lia|simpl; lia|reflexivity|discriminate|].
  discriminate Haln.
Qed.

(** C6, amended. The traceback starts with [last = diag], one of the three
    directions.  The first move closes the initial open segment, the empty
    [r,r) x [c,c) of score 0, when it is a move up or to the left; a first
    diagonal move closes nothing. *)
Theorem first_move_closes_unless_diagonal a index rSeq qSeq table st' :
  0 < length rSeq -> 0 < length qSeq ->
  tb_body a index rSeq qSeq (length qSeq + 1) table
    (tb_init (length rSeq + 1) (length qSeq + 1)) = Ret st' ->
  st' <> tb_init (length rSeq + 1) (length qSeq + 1) ->
  last (tb_init (length rSeq + 1) (length qSeq + 1)) = diag /\
  (last st' = diag -> aln st' = []) /\
  (last st' <> diag ->
   aln st' = [seg (length rSeq) (length rSeq) (length qSeq) (length qSeq) 0]).
Proof.
  intros Hr Hq Hb Hmove. split; [reflexivity|].
  apply tb_body_Ret in Hb
    as (rl & ql & _ & _ & [[_ ->]|[_ (d & tp & tq & _ & _ & ->)]]);
    [contradiction| |simpl; lia..].
  rewrite take_last. split; intros Hd.
  - subst d.
    destruct (take_same diag tp tq
                (tb_init (length rSeq + 1) (length qSeq + 1)) eq_refl)
      as (-> & _).
    reflexivity.
  - destruct (take_turn d tp tq (tb_init (length rSeq + 1) (length qSeq + 1)))
      as (-> & _); [simpl; congruence|].
    simpl. unfold open_segment, seg. simpl.
    replace (length rSeq + 1 - 1) with (length rSeq) by lia.
    replace (length qSeq + 1 - 1) with (length qSeq) by lia.
    reflexivity.
Qed.

Lemma first_move_closes_unless_diagonal_witness :
  last (tb_init (length (letters "AC") + 1) (length (letters "A") + 1)) = diag /\
  (last ac_a_first = diag -> aln ac_a_first = []) /\
  (last ac_a_first <> diag ->
   aln ac_a_first
   = [seg (length (letters "AC")) (length (letters "AC"))
        (length (letters "A")) (length (letters "A")) 0]).
Proof.
  apply (first_move_closes_unless_diagonal
           (simple_matrix 1 0 (-1)) dna_index (letters "AC") (letters "A")
           [0; -1; -1; 1; -2; 0]%Z ac_a_first);
    first [reflexivity | discriminate | simpl; lia].
Defined.

(** ** Worked inputs *)

(** C7. Self-alignment: "ACGT" against itself with match 1, mismatch 0 and
    gap 0 returns the one segment [0,4) x [0,4) of score 4, on any fuel that
    lets the four iterations of the traceback run. *)
Theorem self_alignment n :
  alignLetters (4 + n) (simple_matrix 1 0 0) (letters "ACGT") (letters "ACGT")
    DNA
  = Ret [seg 0 4 0 4 4].
Proof. apply (alignLetters_mono 4); [reflexivity|lia]. Qed.

(** ** Validation *)

(** Against C5 as stated: a 3 x 3 matrix is accepted though the alphabet
    has four symbols, and the call returns segments. *)
Lemma matrix_validation_counterexample :
  ~ (alignLetters 5 two_symbol_matrix (letters "AC") (letters "CA") DNA
     = Err ErrMatrixNotSquare <->
     ((exists row, row ∈ two_symbol_matrix /\
                   length row <> length two_symbol_matrix) \/
      length two_symbol_matrix <> Len DNA + 1)).
Proof.
  intros [_ H].
  assert (alignLetters 5 two_symbol_matrix (letters "AC") (letters "CA") DNA
          = Err ErrMatrixNotSquare) as E.
  { apply H. right. simpl. lia. }
  discriminate E.
Qed.

Lemma not_square_row a :
  ~ square a <-> exists row, row ∈ a /\ length row <> length a.
Proof.
  unfold square. split.
  - intros H. apply not_Forall_Exists in H; [|intros row; apply _].
    apply Exists_exists in H as (row & Hin & Hne). eauto.
  - intros (row & Hin & Hne) H. rewrite Forall_forall in H.
    exact (Hne (H row Hin)).
Qed.

(** C5, amended. The call gives the error return [ErrMatrixNotSquare]
    exactly when some row is not as long as the matrix has rows, whatever
    the sequences, the alphabet and its size: the matrix alone decides, and
    nothing after the check gives that return. *)
Theorem matrix_validation fuel a rSeq qSeq alpha :
  alignLetters fuel a rSeq qSeq alpha = Err ErrMatrixNotSquare <->
  exists row, row ∈ a /\ length row <> length a.
Proof.
  rewrite <- not_square_row, <- check_rows_square. unfold alignLetters.
  split.
  - intros H Hok. rewrite Hok in H. cbn [bind] in H.
    apply bind_Err in H as [H|(G & _ & H)].
    + exact (plain_not_Err _ _ (plain_build_table _ _ _ _) H).
    + exact (trace_from_not_Err _ _ _ _ _ _ _ _ _ H).
  - intros Hno.
    destruct (check_rows_outcome (gap_of a) a) as [E|E]; [contradiction|].
    rewrite E. reflexivity.
Qed.

(** ** The postcondition of the grid *)

(** With a matrix that passed validation, the grid is built exactly when
    every symbol of both sequences indexes into the matrix; and a grid that
    was built has [(r+1) * (c+1)] cells, [G[0][0] = 0], row 0 and column 0
    accumulating the gap scores, and in every interior cell the greatest of
    its three candidates. *)
Theorem built_grid_recurrence a index rSeq qSeq :
  check_rows (gap_of a) a = Ret tt ->
  ((exists G, build_table a index rSeq qSeq = Ret G) <->
   valid_input a index rSeq qSeq) /\
  forall G,
    build_table a index rSeq qSeq = Ret G ->
    length G = (length rSeq + 1) * (length qSeq + 1) /\
    G_at (length qSeq + 1) G 0 0 = 0%Z /\
    (forall j, 1 <= j <= length qSeq ->
       G_at (length qSeq + 1) G 0 j
       = GoInt.add (G_at (length qSeq + 1) G 0 (j - 1))
           (M_at a (gap_of a) (index (sym qSeq (j - 1))))) /\
    (forall i, 1 <= i <= length rSeq ->
       G_at (length qSeq + 1) G i 0
       = GoInt.add (G_at (length qSeq + 1) G (i - 1) 0)
           (M_at a (index (sym rSeq (i - 1))) (gap_of a))) /\
    (forall i j, 1 <= i <= length rSeq -> 1 <= j <= length qSeq ->
       G_at (length qSeq + 1) G i j
       = max (GoInt.add (G_at (length qSeq + 1) G (i - 1) (j - 1))
                (M_at a (index (sym rSeq (i - 1)))
                   (index (sym qSeq (j - 1)))))
             (GoInt.add (G_at (length qSeq + 1) G (i - 1) j)
                (M_at a (index (sym rSeq (i - 1))) (gap_of a)))
             (GoInt.add (G_at (length qSeq + 1) G i (j - 1))
                (M_at a (gap_of a) (index (sym qSeq (j - 1)))))).
Proof.
  intros Hok. apply check_rows_square in Hok. split.
  { split.
    - intros [G Hb]. exact (build_table_valid _ _ _ _ _ Hok Hb).
    - intros Hvalid.
      destruct (build_table_total _ _ _ _ Hvalid) as (G & Hb & _). eauto. }
  intros G Hb.
  destruct (build_table_grid_spec _ _ _ _ _ Hok Hb) as [Hlen Hg].
  split; [exact Hlen|].
  split; [now rewrite Hg by lia|].
  split; [|split].
  - intros j Hj. destruct j as [|j']; [lia|].
    replace (S j' - 1) with j' by lia.
    rewrite !Hg by lia. reflexivity.
  - intros i Hi. destruct i as [|i']; [lia|].
    replace (S i' - 1) with i' by lia.
    rewrite !Hg by lia. reflexivity.
  - intros i j Hi Hj.
    destruct i as [|i']; [lia|]. destruct j as [|j']; [lia|].
    replace (S i' - 1) with i' by lia. replace (S j' - 1) with j' by lia.
    rewrite !Hg by lia. reflexivity.
Qed.

Lemma built_grid_recurrence_witness :
  length [0; -1; -1; 1; -2; 0]%Z
  = (length (letters "AC") + 1) * (length (letters "A") + 1) /\
  G_at (length (letters "A") + 1) [0; -1; -1; 1; -2; 0]%Z 0 0 = 0%Z.
Proof.
  pose proof (proj2 (built_grid_recurrence (simple_matrix 1 0 (-1)) dna_index
                       (letters "AC") (letters "A") eq_refl)
                [0; -1; -1; 1; -2; 0]%Z eq_refl) as (H1 & H2 & _).
  exact (conj H1 H2).
Defined.

(** C1. Grid construction, on an input the code fails: the reference "AN"
    has a symbol the alphabet does not know, and the matrix (match 1,
    mismatch 0, gap -1) passes validation.  Line 93 reads
    [a[index['N']][gap]] with the index -1 while it fills column 0, so the
    grid is not built and the call panics on any fuel, before the guard of
    line 103 is reached.  That guard, on its own, does what the
    postcondition says of such a cell: at cell (2, 1) the body of the inner
    loop returns the table as it was. *)
Theorem unrecognised_symbol_builds_no_grid :
  check_rows (gap_of (simple_matrix 1 0 (-1))) (simple_matrix 1 0 (-1))
  = Ret tt /\
  LetterIndex DNA "N"%char = (-1)%Z /\
  build_table (simple_matrix 1 0 (-1)) (LetterIndex DNA) (letters "AN")
    (letters "A") = Panic IndexOutOfRange /\
  (forall fuel,
     alignLetters fuel (simple_matrix 1 0 (-1)) (letters "AN") (letters "A")
       DNA = Panic IndexOutOfRange) /\
  (forall t,
     fill_cell (simple_matrix 1 0 (-1)) (LetterIndex DNA) (letters "AN")
       (letters "A") (length (letters "A") + 1) 2 1 t = Ret t).
Proof.
  split; [reflexivity|]. split; [reflexivity|]. split; [reflexivity|].
  split; intros; reflexivity.
Qed.

(** ** Termination *)

Section Termination.
Variables (a : NW) (index : Letter -> Z) (rSeq qSeq : Letters).
Variables (c : nat) (table : Table).
Hypothesis Hr : Forall (fun l => (0 <= index l)%Z) rSeq.
Hypothesis Hq : Forall (fun l => (0 <= index l)%Z) qSeq.

(** With every symbol recognised an iteration that returns has stepped. *)
Lemma tb_body_decreases st st' :
  0 < ti st -> 0 < tj st ->
  tb_body a index rSeq qSeq c table st = Ret st' ->
  ti st' + tj st' < ti st + tj st.
Proof.
  intros Hi Hj Hb.
  apply tb_body_Ret in Hb
    as (rl & ql & Hrl & Hql & [[Hneg _]|[_ (d & tp & tq & _ & _ & ->)]]);
    [|rewrite take_ti, take_tj; destruct d; simpl; lia|assumption..].
  rewrite Forall_lookup in Hr, Hq.
  pose proof (Hr _ _ Hrl). pose proof (Hq _ _ Hql).
  destruct (Z.ltb_spec (index rl) 0), (Z.ltb_spec (index ql) 0);
    simpl in Hneg; try discriminate; lia.
Qed.

Lemma traceback_terminates fuel : forall st,
  ti st + tj st <= fuel ->
  traceback fuel a index rSeq qSeq c table st <> OutOfFuel.
Proof.
  induction fuel as [|fuel IH]; intros st Hfuel; simpl.
  - destruct (Nat.ltb_spec 0 (ti st)), (Nat.ltb_spec 0 (tj st));
      simpl; try discriminate; lia.
  - destruct (Nat.ltb_spec 0 (ti st)) as [Hi|Hi],
      (Nat.ltb_spec 0 (tj st)) as [Hj|Hj];
      simpl; try discriminate.
    intros H. apply bind_OutOfFuel in H as [H|(st' & Hb & H)].
    + exact (plain_not_OutOfFuel _ (plain_tb_body _ _ _ _ _ _ _) H).
    + apply (IH st'); [|exact H].
      pose proof (tb_body_decreases st st' Hi Hj Hb). lia.
Qed.
End Termination.

(** C9. Conditional termination: with a matrix that passed validation and
    every symbol of both sequences at a non-negative index, the call ends
    (in segments, an error return or a panic) on fuel [r + c]; and every
    iteration of the traceback either returns with [i + j] strictly smaller,
    so not through the branch that leaves the indices alone, or panics. *)
Theorem conditional_termination a rSeq qSeq alpha :
  check_rows (gap_of a) a = Ret tt ->
  Forall (fun l => (0 <= LetterIndex alpha l)%Z) rSeq ->
  Forall (fun l => (0 <= LetterIndex alpha l)%Z) qSeq ->
  (forall fuel, length rSeq + length qSeq <= fuel ->
     alignLetters fuel a rSeq qSeq alpha <> OutOfFuel) /\
  (forall table st, 0 < ti st -> 0 < tj st ->
     (exists st',
        tb_body a (LetterIndex alpha) rSeq qSeq (length qSeq + 1) table st
        = Ret st' /\
        ti st' + tj st' < ti st + tj st) \/
     (exists p,
        tb_body a (LetterIndex alpha) rSeq qSeq (length qSeq + 1) table st
        = Panic p)).
Proof.
  intros Hok Hr Hq. split.
  - intros fuel Hfuel H. unfold alignLetters in H.
    rewrite Hok in H. cbn [bind] in H.
    apply bind_OutOfFuel in H as [H|(G & _ & H)].
    + exact (plain_not_OutOfFuel _ (plain_build_table _ _ _ _) H).
    + unfold trace_from in H.
      apply bind_OutOfFuel in H as [H|(st & _ & H)].
      * revert H. apply traceback_terminates; [assumption..|].
        simpl. lia.
      * apply bind_OutOfFuel in H as [H|(segs & _ & H')]; [|discriminate].
        exact (plain_not_OutOfFuel _ (plain_emit_tail _ _ _) H).
  - intros table st Hi Hj.
    destruct (plain_tb_body a (LetterIndex alpha) rSeq qSeq
                (length qSeq + 1) table st) as [[st' Hb]|[p Hb]].
    + left. exists st'. split; [exact Hb|].
      exact (tb_body_decreases a (LetterIndex alpha) rSeq qSeq _ table
               Hr Hq st st' Hi Hj Hb).
    + right. eauto.
Qed.

Lemma conditional_termination_witness :
  alignLetters 3 (simple_matrix 1 0 (-1)) (letters "AC") (letters "A") DNA
  <> OutOfFuel.
Proof.
  apply (proj1 (conditional_termination (simple_matrix 1 0 (-1))
                  (letters "AC") (letters "A") DNA
                  eq_refl
                  ltac:(repeat constructor; simpl; lia)
                  ltac:(repeat constructor; simpl; lia))).
  simpl. lia.
Defined.

(** ** Success on valid inputs *)

Section Total.
Variables (a : NW) (index : Letter -> Z) (rSeq qSeq : Letters) (G : Table).
Hypothesis Hvalid : valid_input a index rSeq qSeq.
Hypothesis Hagree : agrees a index rSeq qSeq (fun _ _ => true) G.

Local Abbreviation c := (length qSeq + 1).
Local Abbreviation grid := (grid_spec a index rSeq qSeq).
Local Abbreviation cand := (candidate a index rSeq qSeq c G).

Lemma candidate_diag_valid i j :
  candidate a index rSeq qSeq c G (S i) (S j) diag
  = Ret (GoInt.add (grid i j) (M_at a (index (sym rSeq i)) (index (sym qSeq j))))
  \/ ~ (i < length rSeq /\ j < length qSeq).
Proof.
  destruct (Nat.lt_ge_cases i (length rSeq)) as [Hi|Hi]; [|right; lia].
  destruct (Nat.lt_ge_cases j (length qSeq)) as [Hj|Hj]; [|right; lia].
  left. unfold candidate.
  replace (S i - 1) with i by lia. replace (S j - 1) with j by lia.
  rewrite !letter_at_sym by lia. cbn [bind]. cbv zeta.
  replace (S i * c + S j - c - 1) with (i * c + j) by lia.
  rewrite (agrees_read _ _ _ _ _ G i j Hagree) by (lia || reflexivity).
  cbn [bind]. rewrite (valid_r_q _ _ _ _ Hvalid) by lia. reflexivity.
Qed.

Lemma candidate_up_valid i j :
  candidate a index rSeq qSeq c G (S i) (S j) up
  = Ret (GoInt.add (grid i (S j)) (M_at a (index (sym rSeq i)) (gap_of a)))
  \/ ~ (i < length rSeq /\ j < length qSeq).
Proof.
  destruct (Nat.lt_ge_cases i (length rSeq)) as [Hi|Hi]; [|right; lia].
  destruct (Nat.lt_ge_cases j (length qSeq)) as [Hj|Hj]; [|right; lia].
  left. unfold candidate.
  replace (S i - 1) with i by lia. replace (S j - 1) with j by lia.
  rewrite !letter_at_sym by lia. cbn [bind]. cbv zeta.
  replace (S i * c + S j - c) with (i * c + S j) by lia.
  rewrite (agrees_read _ _ _ _ _ G i (S j) Hagree) by (lia || reflexivity).
  cbn [bind]. rewrite (valid_r_gap _ _ _ _ Hvalid) by lia. reflexivity.
Qed.

Lemma candidate_left_valid i j :
  candidate a index rSeq qSeq c G (S i) (S j) left
  = Ret (GoInt.add (grid (S i) j) (M_at a (gap_of a) (index (sym qSeq j))))
  \/ ~ (i < length rSeq /\ j < length qSeq).
Proof.
  destruct (Nat.lt_ge_cases i (length rSeq)) as [Hi|Hi]; [|right; lia].
  destruct (Nat.lt_ge_cases j (length qSeq)) as [Hj|Hj]; [|right; lia].
  left. unfold candidate.
  replace (S i - 1) with i by lia. replace (S j - 1) with j by lia.
  rewrite !letter_at_sym by lia. cbn [bind]. cbv zeta.
  replace (S i * c + S j - 1) with (S i * c + j) by lia.
  rewrite (agrees_read _ _ _ _ _ G (S i) j Hagree) by (lia || reflexivity).
  cbn [bind]. rewrite (valid_gap_q _ _ _ _ Hvalid) by lia. reflexivity.
Qed.

(** On the grid of a valid input every iteration takes a step. *)
Lemma tb_body_total st :
  0 < ti st <= length rSeq -> 0 < tj st <= length qSeq ->
  exists d tp tq,
    tb_body a index rSeq qSeq c G st = Ret (take d tp tq st).
Proof.
  intros Hi Hj.
  destruct (ti st) as [|i] eqn:Ei; [lia|].
  destruct (tj st) as [|j] eqn:Ej; [lia|].
  assert (tget G (ti st * c + tj st) = Ret (grid (S i) (S j))) as Hp.
  { rewrite Ei, Ej. apply (agrees_read _ _ _ _ _ G (S i) (S j) Hagree);
      lia || reflexivity. }
  destruct (candidate_diag_valid i j) as [Hd|]; [|lia].
  destruct (candidate_up_valid i j) as [Hu|]; [|lia].
  destruct (candidate_left_valid i j) as [Hl|]; [|lia].
  set (tp := grid (S i) (S j)) in *.
  set (vd := GoInt.add (grid i j) _) in Hd.
  set (vu := GoInt.add (grid i (S j)) _) in Hu.
  set (vl := GoInt.add (grid (S i) j) _) in Hl.
  assert (tp = max vd vu vl) as Emax by reflexivity.
  clearbody tp vd vu vl.
  rewrite <- Ei, <- Ej in Hd, Hu, Hl.
  destruct (Z.eq_dec vd tp) as [Ed|Nd].
  { rewrite Ed in Hd.
    destruct (body_diag a index rSeq qSeq c G st tp Hp Hd) as [td Hb].
    eauto. }
  destruct (Z.eq_dec vu tp) as [Eu|Nu].
  { rewrite Eu in Hu.
    destruct (body_up a index rSeq qSeq c G st tp Hp vd Hd Nd Hu) as [tu Hb].
    eauto. }
  assert (vl = tp) as El.
  { destruct (max_cases vd vu vl) as [E|[E|E]]; congruence. }
  rewrite El in Hl.
  destruct (body_left a index rSeq qSeq c G st tp Hp vd vu Hd Nd Hu Nu Hl)
    as [tl Hb].
  eauto.
Qed.

Lemma traceback_total fuel : forall st,
  ti st <= length rSeq -> tj st <= length qSeq ->
  ti st + tj st <= fuel ->
  exists st',
    traceback fuel a index rSeq qSeq c G st = Ret st' /\
    ti st' <= length rSeq /\ tj st' <= length qSeq.
Proof.
  induction fuel as [|fuel IH]; intros st Hi Hj Hfuel; simpl.
  - destruct (Nat.ltb_spec 0 (ti st)), (Nat.ltb_spec 0 (tj st));
      simpl; eauto; lia.
  - destruct (Nat.ltb_spec 0 (ti st)) as [Hi0|Hi0],
      (Nat.ltb_spec 0 (tj st)) as [Hj0|Hj0]; simpl; eauto.
    destruct (tb_body_total st) as (d & tp & tq & ->); [lia|lia|].
    cbn [bind]. apply IH; rewrite ?take_ti, ?take_tj;
      destruct d; simpl; lia.
Qed.

(** On a valid input the call returns segments on fuel [r + c]. *)
Lemma trace_from_total fuel :
  length rSeq + length qSeq <= fuel ->
  exists segs,
    trace_from fuel a index rSeq qSeq c G (tb_init (length rSeq + 1) c)
    = Ret segs.
Proof.
  intros Hfuel. unfold trace_from.
  destruct (traceback_total fuel (tb_init (length rSeq + 1) c))
    as (st & -> & Hi & Hj); [simpl; lia..|].
  cbn [bind]. unfold emit_tail.
  destruct (negb (ti st =? tj st)); cbn [bind]; [|eauto].
  rewrite (agrees_read _ _ _ _ _ G (ti st) (tj st) Hagree)
    by (lia || reflexivity).
  cbn [bind]. eauto.
Qed.
End Total.

(** A valid input (square matrix, every symbol indexing into it) is
    aligned: the call returns segments. *)
Lemma alignLetters_total fuel a rSeq qSeq alpha :
  valid_input a (LetterIndex alpha) rSeq qSeq ->
  length rSeq + length qSeq <= fuel ->
  exists segs, alignLetters fuel a rSeq qSeq alpha = Ret segs.
Proof.
  intros Hvalid Hfuel. unfold alignLetters.
  rewrite (proj2 (check_rows_square a) (proj1 Hvalid)). cbn [bind].
  destruct (build_table_total _ _ _ _ Hvalid) as (G & -> & Hagree).
  cbn [bind]. now apply trace_from_total.
Qed.

(** ** Empty segments *)

Section Moved.
Variables (a : NW) (index : Letter -> Z) (rSeq qSeq : Letters).
Variables (c : nat) (table : Table).
Variables (d1 : direction) (R C : nat).




End Moved.

Lemma tb_init_lengths (rSeq qSeq : Letters) :
  tb_init (length rSeq + 1) (length qSeq + 1)
  = {| aln := []; score := 0; last := diag;
       ti := length rSeq; tj := length qSeq;
       maxI := length rSeq; maxJ := length qSeq |}.
Proof.
  unfold tb_init.
  replace (length rSeq + 1 - 1) with (length rSeq) by lia.
  replace (length qSeq + 1 - 1) with (length qSeq) by lia.
  reflexivity.
Qed.




(** ** Outcomes of the call *)

Lemma range_only_Ret {A : Type} (x : A) : range_only (Ret x).
Proof. intros p H. discriminate. Qed.

Lemma range_only_oob {A : Type} : range_only (@Panic A IndexOutOfRange).
Proof. intros p H. congruence. Qed.

Lemma range_only_bind {A B : Type} (m : res A) (k : A -> res B) :
  range_only m -> (forall x, range_only (k x)) -> range_only (bind m k).
Proof.
  intros Hm Hk p H. destruct m as [x|e|q|]; simpl in H; try discriminate.
  - exact (Hk x p H).
  - injection H as <-. now apply Hm.
Qed.

Lemma range_only_letter_at s k : range_only (letter_at s k).
Proof.
  unfold letter_at. destruct (s !! k);
    [apply range_only_Ret|apply range_only_oob].
Qed.

Lemma range_only_tget t p : range_only (tget t p).
Proof.
  unfold tget. destruct (t !! p); [apply range_only_Ret|apply range_only_oob].
Qed.

Lemma range_only_tset t p v : range_only (tset t p v).
Proof.
  unfold tset. destruct (p <? length t);
    [apply range_only_Ret|apply range_only_oob].
Qed.

Lemma range_only_at2 a x y : range_only (at2 a x y).
Proof.
  unfold at2, row_at.
  destruct (x <? 0)%Z; [apply range_only_oob|].
  destruct (a !! Z.to_nat x); [|apply range_only_oob]. simpl.
  destruct (y <? 0)%Z; [apply range_only_oob|].
  destruct (_ !! Z.to_nat y); [apply range_only_Ret|apply range_only_oob].
Qed.

(** Closes [range_only] goals over the checked accesses. *)
Ltac range_only_tac :=
  repeat first
    [ apply range_only_Ret | apply range_only_oob
    | apply range_only_letter_at | apply range_only_tget
    | apply range_only_tset | apply range_only_at2
    | apply range_only_bind; [|intros ?]
    | match goal with |- range_only (if ?b then _ else _) => destruct b end
    | progress cbv zeta ].

Lemma range_only_for_range {S : Type} (body : nat -> S -> res S) n :
  (forall k s, range_only (body k s)) ->
  forall lo s, range_only (for_range n lo body s).
Proof.
  intros Hb. induction n as [|n IH]; intros lo s; simpl.
  - apply range_only_Ret.
  - apply range_only_bind; [apply Hb|]. intros x. apply IH.
Qed.

Lemma range_only_build_table a index rSeq qSeq :
  range_only (build_table a index rSeq qSeq).
Proof.
  unfold build_table, init_row, init_col, fill. cbv zeta.
  apply range_only_bind; [|intros t1; apply range_only_bind; [|intros t2]].
  - apply range_only_for_range. intros k s. range_only_tac.
  - apply range_only_for_range. intros k s. range_only_tac.
  - apply range_only_for_range. intros k s.
    apply range_only_for_range. intros k' s'. unfold fill_cell.
    range_only_tac.
Qed.

(** With a square matrix, a symbol of either sequence whose index is not
    a row of the matrix (an unrecognised symbol has a negative one) makes
    the call panic on an access out of range, on any fuel: the borders of
    the grid read the gap score of every symbol. *)
Theorem symbol_outside_matrix_panics fuel a rSeq qSeq alpha l :
  check_rows (gap_of a) a = Ret tt ->
  l ∈ rSeq ++ qSeq ->
  ~ in_matrix a (LetterIndex alpha l) ->
  alignLetters fuel a rSeq qSeq alpha = Panic IndexOutOfRange.
Proof.
  intros Hok Hin Hout. unfold alignLetters. rewrite Hok. cbn [bind].
  destruct (plain_build_table a (LetterIndex alpha) rSeq qSeq)
    as [[G Hb]|[p Hb]].
  - exfalso. apply check_rows_square in Hok.
    destruct (build_table_valid _ _ _ _ _ Hok Hb) as (_ & Hr & Hq).
    rewrite Forall_forall in Hr, Hq.
    apply elem_of_app in Hin as [Hin|Hin]; eauto.
  - rewrite Hb. cbn [bind].
    now rewrite (range_only_build_table _ _ _ _ p Hb).
Qed.

Lemma symbol_outside_matrix_panics_witness :
  alignLetters 5 (simple_matrix 1 0 (-1)) (letters "AN") (letters "A") DNA
  = Panic IndexOutOfRange.
Proof.
  apply (symbol_outside_matrix_panics 5 (simple_matrix 1 0 (-1))
           (letters "AN") (letters "A") DNA "N"%char).
  - reflexivity.
  - apply list_elem_of_In. simpl. auto.
  - unfold in_matrix. simpl. lia.
Defined.

(** With a square matrix and every symbol of both sequences indexing into
    it, the call returns segments once the fuel covers the [r + c]
    iterations the traceback can make: no panic, no error. *)
Theorem valid_input_is_aligned fuel a rSeq qSeq alpha :
  check_rows (gap_of a) a = Ret tt ->
  Forall (fun l => in_matrix a (LetterIndex alpha l)) rSeq ->
  Forall (fun l => in_matrix a (LetterIndex alpha l)) qSeq ->
  length rSeq + length qSeq <= fuel ->
  exists segs, alignLetters fuel a rSeq qSeq alpha = Ret segs.
Proof.
  intros Hok Hr Hq Hfuel. apply alignLetters_total; [|exact Hfuel].
  apply check_rows_square in Hok. now repeat split.
Qed.

Lemma valid_input_is_aligned_witness :
  exists segs,
    alignLetters 3 (simple_matrix 1 0 (-1)) (letters "AC") (letters "A") DNA
    = Ret segs.
Proof.
  apply (valid_input_is_aligned 3 (simple_matrix 1 0 (-1)) (letters "AC")
           (letters "A") DNA).
  - reflexivity.
  - repeat constructor; unfold in_matrix; simpl; lia.
  - repeat constructor; unfold in_matrix; simpl; lia.
  - simpl. lia.
Defined.

Lemma traceback_at_border fuel a index rSeq qSeq c table st :
  ti st = 0 \/ tj st = 0 ->
  traceback fuel a index rSeq qSeq c table st = Ret st.
Proof.
  intros H.
  assert ((0 <? ti st) && (0 <? tj st) = false) as E.
  { destruct (Nat.ltb_spec 0 (ti st)), (Nat.ltb_spec 0 (tj st));
      try reflexivity; lia. }
  destruct fuel; simpl; now rewrite E.
Qed.

(** With an empty reference or an empty query (and a valid input) the
    traceback makes no move, on any fuel: the result is the empty segment
    at [(r, c)], preceded, unless both sequences are empty, by one block
    [0,r) x [0,c) whose score is the last cell of the grid. *)
Theorem empty_sequence_result fuel a rSeq qSeq alpha :
  check_rows (gap_of a) a = Ret tt ->
  Forall (fun l => in_matrix a (LetterIndex alpha l)) rSeq ->
  Forall (fun l => in_matrix a (LetterIndex alpha l)) qSeq ->
  rSeq = [] \/ qSeq = [] ->
  exists G,
    build_table a (LetterIndex alpha) rSeq qSeq = Ret G /\
    alignLetters fuel a rSeq qSeq alpha
    = Ret (if length rSeq =? length qSeq
           then [seg (length rSeq) (length rSeq) (length qSeq) (length qSeq) 0]
           else [seg 0 (length rSeq) 0 (length qSeq)
                   (G_at (length qSeq + 1) G (length rSeq) (length qSeq));
                 seg (length rSeq) (length rSeq) (length qSeq) (length qSeq)
                   0]).
Proof.
  intros Hok Hr Hq Hempty.
  assert (valid_input a (LetterIndex alpha) rSeq qSeq) as Hvalid.
  { apply check_rows_square in Hok. now repeat split. }
  destruct (build_table_total _ _ _ _ Hvalid) as (G & Hb & Hagree).
  exists G. split; [exact Hb|].
  unfold alignLetters, trace_from. rewrite Hok, Hb. cbn [bind].
  rewrite tb_init_lengths.
  rewrite traceback_at_border
    by (simpl; destruct Hempty as [-> | ->]; simpl; auto).
  cbn [bind]. unfold emit_tail. cbn [ti tj aln].
  destruct (Nat.eqb_spec (length rSeq) (length qSeq)) as [E|E]; cbn [negb bind].
  - rewrite reverse_in_place_reverse. reflexivity.
  - rewrite (agrees_read _ _ _ _ _ G (length rSeq) (length qSeq) Hagree)
      by (lia || reflexivity).
    cbn [bind]. rewrite reverse_in_place_reverse.
    unfold G_at. destruct Hagree as [_ Hcells].
    rewrite Hcells by lia. reflexivity.
Qed.

Lemma empty_sequence_result_witness :
  exists G,
    build_table (simple_matrix 1 0 (-1)) (LetterIndex DNA) (letters "")
      (letters "AC") = Ret G /\
    alignLetters 0 (simple_matrix 1 0 (-1)) (letters "") (letters "AC") DNA
    = Ret (if length (letters "") =? length (letters "AC")
           then [seg (length (letters "")) (length (letters ""))
                   (length (letters "AC")) (length (letters "AC")) 0]
           else [seg 0 (length (letters "")) 0 (length (letters "AC"))
                   (G_at (length (letters "AC") + 1) G (length (letters ""))
                      (length (letters "AC")));
                 seg (length (letters "")) (length (letters ""))
                   (length (letters "AC")) (length (letters "AC")) 0]).
Proof.
  apply (empty_sequence_result 0 (simple_matrix 1 0 (-1)) (letters "")
           (letters "AC") DNA).
  - reflexivity.
  - constructor.
  - repeat constructor; unfold in_matrix; simpl; lia.
  - now left.
Defined.

(** ** Properties every step keeps *)

Section Preserve.
Variables (a : NW) (index : Letter -> Z) (rSeq qSeq : Letters).
Variables (c : nat) (table : Table).
Variable P : tb_state -> Prop.
Hypothesis Hstep : forall st d tp tq,
  0 < ti st -> 0 < tj st ->
  tget table (ti st * c + tj st) = Ret tp ->
  tget table (step_i d (ti st) * c + step_j d (tj st)) = Ret tq ->
  P st -> P (take d tp tq st).

(** What every step keeps holds when the loop returns. *)
Lemma traceback_preserves fuel : forall st st',
  P st ->
  traceback fuel a index rSeq qSeq c table st = Ret st' ->
  P st' /\ (ti st' = 0 \/ tj st' = 0).
Proof.
  induction fuel as [|fuel IH]; intros st st' HP Hrun; simpl in Hrun.
  - destruct (Nat.ltb_spec 0 (ti st)), (Nat.ltb_spec 0 (tj st));
      simpl in Hrun; try discriminate;
      injection Hrun as <-; (split; [assumption|lia]).
  - destruct (Nat.ltb_spec 0 (ti st)) as [Hi|Hi],
      (Nat.ltb_spec 0 (tj st)) as [Hj|Hj]; simpl in Hrun;
      try (injection Hrun as <-; (split; [assumption|lia])).
    inv_bind Hrun. apply (IH x); [|exact Hrunb].
    apply tb_body_Ret in Hruna
      as (rl & ql & _ & _ & [[_ ->]|[_ (d & tp & tq & Hp & Hq & ->)]]);
      [exact HP|now apply Hstep|assumption..].
Qed.
End Preserve.

Lemma shapes_kept_take d tp tq st :
  0 < ti st -> 0 < tj st ->
  shapes_kept st -> shapes_kept (take d tp tq st).
Proof.
  intros Hi Hj [Hall Hopen]. unfold shapes_kept, shaped, open_segment in *.
  simpl in Hopen. rewrite take_last.
  destruct (decide (last st = d)) as [Hd|Hd].
  - destruct (take_same d tp tq st Hd) as (Ea & EI & EJ & _).
    rewrite take_ti, take_tj, Ea, EI, EJ. simpl. split; [exact Hall|].
    rewrite Hd in Hopen. destruct d; simpl; lia.
  - destruct (take_turn d tp tq st Hd) as (Ea & EI & EJ & _).
    rewrite take_ti, take_tj, Ea, EI, EJ. simpl. split.
    + apply Forall_app. split; [exact Hall|].
      constructor; [|constructor]. exists (last st). exact Hopen.
    + destruct d; simpl; lia.
Qed.

(** Every segment returned is a run of one kind of move: it spans as many
    reference as query positions (a run of aligned pairs), or no query
    position (reference against gaps), or no reference position (query
    against gaps). *)
Theorem segments_are_runs fuel a rSeq qSeq alpha segs :
  alignLetters fuel a rSeq qSeq alpha = Ret segs ->
  Forall (fun s => exists d, shaped d s) segs.
Proof.
  intros H. apply alignLetters_Ret in H
    as (_ & G & st & emitted & _ & Ht & He & ->).
  apply (traceback_preserves _ _ _ _ _ _ shapes_kept) in Ht
    as [[Hall Hopen] Hend].
  - apply Forall_forall. intros s Hin. rewrite elem_of_reverse in Hin.
    unfold emit_tail in He.
    destruct (negb (ti st =? tj st)); simpl in He.
    + inv_bind He. injection Heb as <-.
      rewrite !elem_of_app, !list_elem_of_singleton in Hin.
      rewrite Forall_forall in Hall.
      destruct Hin as [[Hin| ->]| ->]; [now apply Hall|eauto|].
      destruct Hend as [E|E].
      * exists left. unfold shaped. simpl. lia.
      * exists up. unfold shaped. simpl. lia.
    + injection He as <-.
      rewrite elem_of_app, list_elem_of_singleton in Hin.
      rewrite Forall_forall in Hall.
      destruct Hin as [Hin| ->]; [now apply Hall|eauto].
  - intros st0 d tp tq Hi Hj _ _. now apply shapes_kept_take.
  - split; [constructor|]. unfold shaped. simpl. lia.
Qed.

Lemma segments_are_runs_witness :
  Forall (fun s => exists d, shaped d s)
    [seg 0 1 0 1 1; seg 1 2 1 1 (-1); seg 2 2 1 1 0].
Proof.
  apply (segments_are_runs 3 (simple_matrix 1 0 (-1)) (letters "AC")
           (letters "A") DNA).
  reflexivity.
Defined.

Lemma deltas_kept_take c table d tp tq st :
  tget table (ti st * c + tj st) = Ret tp ->
  tget table (step_i d (ti st) * c + step_j d (tj st)) = Ret tq ->
  deltas_kept c table st -> deltas_kept c table (take d tp tq st).
Proof.
  intros Hp Hq [Hall Hscore]. unfold deltas_kept.
  apply G_at_tget in Hp, Hq.
  destruct (decide (last st = d)) as [Hd|Hd].
  - destruct (take_same d tp tq st Hd) as (Ea & EI & EJ & Es).
    rewrite take_ti, take_tj, Ea, EI, EJ, Es, Hq. split; [exact Hall|].
    rewrite Hscore, Hp. unfold GoInt.add, GoInt.sub.
    rewrite GoIntFacts.wrap_add_l, GoIntFacts.wrap_add_r. f_equal. lia.
  - destruct (take_turn d tp tq st Hd) as (Ea & EI & EJ & Es).
    rewrite take_ti, take_tj, Ea, EI, EJ, Es, Hq, Hp. split.
    + apply Forall_app. split; [exact Hall|].
      constructor; [|constructor]. exact Hscore.
    + unfold GoInt.add, GoInt.sub.
      rewrite GoIntFacts.wrap_add_r. f_equal.
Qed.

(** Every segment returned, the leading block included, has for score what
    the grid gains from the cell where the segment starts to the cell where
    it ends (a difference of the program's integers). *)
Theorem segment_scores_are_grid_deltas fuel a rSeq qSeq alpha segs :
  alignLetters fuel a rSeq qSeq alpha = Ret segs ->
  exists G,
    build_table a (LetterIndex alpha) rSeq qSeq = Ret G /\
    Forall (grid_delta (length qSeq + 1) G) segs.
Proof.
  intros H. apply alignLetters_Ret in H
    as (Hsq & G & st & emitted & Hb & Ht & He & ->).
  exists G. split; [exact Hb|].
  destruct (build_table_grid_spec _ _ _ _ _ Hsq Hb) as [Hlen Hg].
  pose proof (tb_init_inv _ _ _ _ _ Hsq Hb) as H0.
  destruct (traceback_inv _ _ _ _ _ _ _ _ _ _ _ _ H0 Ht)
    as [[Hi Hj _ _] _].
  apply (traceback_preserves _ _ _ _ _ _ (deltas_kept (length qSeq + 1) G))
    in Ht as [[Hall Hscore] Hend].
  - apply Forall_forall. intros s Hin. rewrite elem_of_reverse in Hin.
    unfold emit_tail in He.
    destruct (negb (ti st =? tj st)); simpl in He.
    + inv_bind He. injection Heb as <-.
      rewrite !elem_of_app, !list_elem_of_singleton in Hin.
      rewrite Forall_forall in Hall.
      destruct Hin as [[Hin| ->]| ->]; [now apply Hall|exact Hscore|].
      unfold grid_delta. simpl.
      apply G_at_tget in Hea. rewrite Hea.
      rewrite (Hg 0 0) by lia. simpl. unfold GoInt.sub.
      rewrite Z.sub_0_r. symmetry. apply GoIntFacts.wrap_small.
      rewrite <- Hea, Hg by lia. apply grid_spec_in_range.
    + injection He as <-.
      rewrite elem_of_app, list_elem_of_singleton in Hin.
      rewrite Forall_forall in Hall.
      destruct Hin as [Hin| ->]; [now apply Hall|exact Hscore].
  - intros st0 d tp tq _ _ Hp Hq. now apply deltas_kept_take.
  - split; [constructor|]. simpl. unfold GoInt.sub.
    rewrite Z.sub_diag. reflexivity.
Qed.

Lemma segment_scores_are_grid_deltas_witness :
  exists G,
    build_table (simple_matrix 1 0 (-1)) (LetterIndex DNA) (letters "AC")
      (letters "A") = Ret G /\
    Forall (grid_delta (length (letters "A") + 1) G)
      [seg 0 1 0 1 1; seg 1 2 1 1 (-1); seg 2 2 1 1 0].
Proof.
  apply (segment_scores_are_grid_deltas 3 (simple_matrix 1 0 (-1))
           (letters "AC") (letters "A") DNA).
  reflexivity.
Defined.

(** ** The pointer and the traceback *)

Lemma take_moves d tp tq st :
  0 < ti st -> 0 < tj st -> take d tp tq st <> st.
Proof.
  intros Hi Hj E.
  assert (ti (take d tp tq st) + tj (take d tp tq st) = ti st + tj st) as H
    by now rewrite E.
  rewrite take_ti, take_tj in H. destruct d; simpl in H; lia.
Qed.

(** Case analysis on a checked access: its value, or the panic. *)
Ltac case_access m :=
  let E := fresh "E" in
  let v := fresh "v" in
  let e := fresh "e" in
  let p := fresh "p" in
  destruct m as [v|e|p|] eqn:E; cbn [bind];
  [ idtac
  | exfalso; refine (plain_not_Err _ _ _ E); plain_tac
  | assert (p = IndexOutOfRange) as ->
      by (refine (_ p E); change (range_only m); range_only_tac)
  | exfalso; refine (plain_not_OutOfFuel _ _ E); plain_tac ].

(** The switch of the pointer and the switch of the traceback go the same
    way at every cell off the borders. *)
Lemma pointer_body_cases a index rSeq qSeq c table st :
  0 < ti st -> 0 < tj st ->
  (exists d tp tq,
     tb_body a index rSeq qSeq c table st = Ret (take d tp tq st) /\
     pointerNWRuneLetters rSeq qSeq (ti st) (tj st) table index a c
     = Ret (arrow d)) \/
  (tb_body a index rSeq qSeq c table st = Ret st /\
   pointerNWRuneLetters rSeq qSeq (ti st) (tj st) table index a c
   = Ret rune_blank) \/
  (tb_body a index rSeq qSeq c table st = Panic (NoPath (ti st) (tj st)) /\
   pointerNWRuneLetters rSeq qSeq (ti st) (tj st) table index a c
   = Ret rune_blank) \/
  (tb_body a index rSeq qSeq c table st = Panic IndexOutOfRange /\
   pointerNWRuneLetters rSeq qSeq (ti st) (tj st) table index a c
   = Panic IndexOutOfRange).
Proof.
  intros Hi Hj. unfold tb_body, pointerNWRuneLetters.
  destruct (Nat.eqb_spec (ti st) 0) as [|_]; [lia|].
  destruct (Nat.eqb_spec (tj st) 0) as [|_]; [lia|].
  cbn [andb].
  case_access (letter_at rSeq (ti st - 1)); [|auto 6].
  case_access (letter_at qSeq (tj st - 1)); [|auto 6].
  cbv zeta.
  destruct ((index v <? 0)%Z || (index v0 <? 0)%Z); [auto 6|].
  case_access (tget table (ti st * c + tj st)); [|auto 6].
  case_access (tget table (ti st * c + tj st - c - 1)); [|auto 6].
  case_access (at2 a (index v) (index v0)); [|auto 6].
  destruct (v1 =? GoInt.add v2 v3)%Z.
  { left. exists diag, v1, v2. auto. }
  case_access (tget table (ti st * c + tj st - c)); [|auto 6].
  case_access (at2 a (index v) (gap_of a)); [|auto 6].
  destruct (v1 =? GoInt.add v4 v5)%Z.
  { left. exists up, v1, v4. auto. }
  case_access (tget table (ti st * c + tj st - 1)); [|auto 6].
  case_access (at2 a (gap_of a) (index v0)); [|auto 6].
  destruct (v1 =? GoInt.add v6 v7)%Z.
  { left. exists left, v1, v6. auto. }
  auto 6.
Qed.

(** The rune of a cell off the borders tells what the traceback does
    there: the arrow of the move it takes; a blank where it leaves the
    indices alone (an unrecognised symbol) or panics for want of a path;
    and where the traceback panics on an access out of range, so does the
    pointer. *)
Theorem pointer_follows_traceback a index rSeq qSeq c table st :
  0 < ti st -> 0 < tj st ->
  (forall st',
     tb_body a index rSeq qSeq c table st = Ret st' -> st' <> st ->
     pointerNWRuneLetters rSeq qSeq (ti st) (tj st) table index a c
     = Ret (arrow (last st'))) /\
  (tb_body a index rSeq qSeq c table st = Ret st ->
   pointerNWRuneLetters rSeq qSeq (ti st) (tj st) table index a c
   = Ret rune_blank) /\
  (forall i j,
     tb_body a index rSeq qSeq c table st = Panic (NoPath i j) ->
     pointerNWRuneLetters rSeq qSeq (ti st) (tj st) table index a c
     = Ret rune_blank) /\
  (tb_body a index rSeq qSeq c table st = Panic IndexOutOfRange ->
   pointerNWRuneLetters rSeq qSeq (ti st) (tj st) table index a c
   = Panic IndexOutOfRange).
Proof.
  intros Hi Hj.
  destruct (pointer_body_cases a index rSeq qSeq c table st Hi Hj)
    as [(d & tp & tq & Hb & Hp)|[[Hb Hp]|[[Hb Hp]|[Hb Hp]]]];
    rewrite Hb, Hp; repeat split; intros; try congruence.
  - match goal with H : Ret _ = Ret _ |- _ => injection H as <- end.
    now rewrite take_last.
  - exfalso.
    match goal with
    | H : Ret _ = Ret _ |- _ =>
        assert (take d tp tq st = st) as E by congruence
    end.
    exact (take_moves d tp tq st Hi Hj E).
Qed.

Lemma pointer_follows_traceback_witness :
  pointerNWRuneLetters (letters "AC") (letters "A")
    (ti (tb_init 3 2)) (tj (tb_init 3 2)) [0; -1; -1; 1; -2; 0]%Z
    dna_index (simple_matrix 1 0 (-1)) 2
  = Ret (arrow (last ac_a_first)).
Proof.
  apply (proj1 (pointer_follows_traceback (simple_matrix 1 0 (-1)) dna_index
                  (letters "AC") (letters "A") 2 [0; -1; -1; 1; -2; 0]%Z
                  (tb_init 3 2) ltac:(simpl; lia) ltac:(simpl; lia))).
  - reflexivity.
  - discriminate.
Defined.

Lemma arrow_not_blank d : arrow d <> rune_blank.
Proof. destruct d; discriminate. Qed.

(** On the grid built for a validated matrix, the pointer of every cell
    returns a rune, and the rune is a blank at the origin only: every other
    cell of the table is drawn with an arrow. *)
Theorem pointer_on_built_grid a index rSeq qSeq G i j :
  check_rows (gap_of a) a = Ret tt ->
  build_table a index rSeq qSeq = Ret G ->
  i <= length rSeq -> j <= length qSeq ->
  exists rune,
    pointerNWRuneLetters rSeq qSeq i j G index a (length qSeq + 1) = Ret rune /\
    (rune = rune_blank <-> i = 0 /\ j = 0).
Proof.
  intros Hok Hb Hi Hj. apply check_rows_square in Hok.
  destruct i as [|i'].
  { destruct j as [|j'].
    - exists rune_blank. split; [reflexivity|]. tauto.
    - exists rune_left. split; [reflexivity|].
      split; [discriminate|intros [_ E]; discriminate]. }
  destruct j as [|j'].
  { exists rune_up. split; [reflexivity|].
    split; [discriminate|intros [E _]; discriminate]. }
  pose proof (build_table_valid _ _ _ _ _ Hok Hb) as Hvalid.
  destruct (build_table_total _ _ _ _ Hvalid) as (G' & Hb' & Hagree).
  assert (G' = G) as -> by congruence.
  set (st := {| aln := []; score := 0; last := diag;
                ti := S i'; tj := S j'; maxI := S i'; maxJ := S j' |}).
  destruct (tb_body_total a index rSeq qSeq G Hvalid Hagree st)
    as (d & tp & tq & Hbody); [simpl; lia..|].
  destruct (pointer_body_cases a index rSeq qSeq (length qSeq + 1) G st)
    as [(d' & tp' & tq' & _ & Hp)|[[Hb2 _]|[[Hb2 _]|[Hb2 _]]]];
    [simpl; lia..| | | |]; try congruence.
  - exists (arrow d'). split; [exact Hp|].
    split; [intros E; now apply arrow_not_blank in E|intros [E _]; discriminate].
  - exfalso. assert (take d tp tq st = st) as E by congruence.
    apply (take_moves d tp tq st); [simpl; lia..|exact E].
Qed.

Lemma pointer_on_built_grid_witness :
  exists rune,
    pointerNWRuneLetters (letters "AC") (letters "A") 2 1
      [0; -1; -1; 1; -2; 0]%Z dna_index (simple_matrix 1 0 (-1))
      (length (letters "A") + 1) = Ret rune /\
    (rune = rune_blank <-> 2 = 0 /\ 1 = 0).
Proof.
  apply (pointer_on_built_grid (simple_matrix 1 0 (-1)) dna_index
           (letters "AC") (letters "A") [0; -1; -1; 1; -2; 0]%Z 2 1);
    first [reflexivity | simpl; lia].
Defined.

(** ** The grid holds the best score *)

Section Optimal.
Variables (a : NW) (index : Letter -> Z) (rSeq qSeq : Letters) (B : Z).
Hypothesis Hvalid : valid_input a index rSeq qSeq.
Hypothesis Hwithin : entries_within a B.
Hypothesis Hroom :
  (Z.of_nat (length rSeq + length qSeq) * B < GoInt.half)%Z.

Local Abbreviation grid := (grid_spec a index rSeq qSeq).
Local Abbreviation Mrq := (fun i j => M_at a (index (sym rSeq i)) (index (sym qSeq j))).
Local Abbreviation Mrg := (fun i => M_at a (index (sym rSeq i)) (gap_of a)).
Local Abbreviation Mgq := (fun j => M_at a (gap_of a) (index (sym qSeq j))).

Lemma M_at_within x y :
  in_matrix a x -> in_matrix a y -> (- B <= M_at a x y <= B)%Z.
Proof.
  intros Hx Hy.
  pose proof (at2_square a x y (proj1 Hvalid) Hx Hy) as E.
  apply at2_Ret_inv in E as (row & _ & Er & _ & Ev).
  unfold entries_within in Hwithin. rewrite Forall_lookup in Hwithin.
  pose proof (Hwithin _ _ Er) as Hrow. rewrite Forall_lookup in Hrow.
  exact (Hrow _ _ Ev).
Qed.

Lemma Mrq_within i j :
  i < length rSeq -> j < length qSeq -> (- B <= Mrq i j <= B)%Z.
Proof.
  intros Hi Hj. apply M_at_within;
    [now apply (valid_r _ _ _ _ Hvalid)|now apply (valid_q _ _ _ _ Hvalid)].
Qed.

Lemma Mrg_within i : i < length rSeq -> (- B <= Mrg i <= B)%Z.
Proof.
  intros Hi. pose proof (valid_r _ _ _ _ Hvalid i Hi) as Hr.
  apply M_at_within; [exact Hr|now apply gap_in_matrix in Hr].
Qed.

Lemma Mgq_within j : j < length qSeq -> (- B <= Mgq j <= B)%Z.
Proof.
  intros Hj. pose proof (valid_q _ _ _ _ Hvalid j Hj) as Hq.
  apply M_at_within; [now apply gap_in_matrix in Hq|exact Hq].
Qed.

(** A sum of a value within [k * B] and an entry does not wrap. *)
Lemma add_exact k v m :
  k < length rSeq + length qSeq ->
  (- (Z.of_nat k * B) <= v <= Z.of_nat k * B)%Z ->
  (- B <= m <= B)%Z ->
  GoInt.add v m = (v + m)%Z /\
  (- (Z.of_nat (S k) * B) <= v + m <= Z.of_nat (S k) * B)%Z.
Proof.
  intros Hk Hv Hm.
  assert (0 <= B)%Z as HB by lia.
  assert (Z.of_nat (S k) * B <= Z.of_nat (length rSeq + length qSeq) * B)%Z
    as Hle by (apply Z.mul_le_mono_nonneg_r; lia).
  assert (Z.of_nat (S k) * B = Z.of_nat k * B + B)%Z as ES by lia.
  split; [|lia].
  apply GoIntFacts.wrap_small. unfold GoInt.in_range. lia.
Qed.

(** Within these bounds the recurrence is the one over the integers, and
    the cell [(i, j)] is within [(i + j) * B] of zero. *)
Lemma grid_exact i : forall j,
  i <= length rSeq -> j <= length qSeq ->
  (- (Z.of_nat (i + j) * B) <= grid i j <= Z.of_nat (i + j) * B)%Z /\
  match i, j with
  | 0, 0 => grid 0 0 = 0%Z
  | 0, S j' => grid 0 (S j') = (grid 0 j' + Mgq j')%Z
  | S i', 0 => grid (S i') 0 = (grid i' 0 + Mrg i')%Z
  | S i', S j' =>
      grid (S i') (S j')
      = Z.max (grid i' j' + Mrq i' j')
          (Z.max (grid i' (S j') + Mrg i') (grid (S i') j' + Mgq j'))
  end.
Proof.
  induction i as [|i' IHi].
  - induction j as [|j' IHj]; intros Hi Hj.
    + simpl. split; [lia|reflexivity].
    + destruct (IHj Hi ltac:(lia)) as [Hb _].
      destruct (add_exact (0 + j') (grid 0 j') (Mgq j') ltac:(lia) Hb
                  (Mgq_within j' ltac:(lia))) as [E Hb'].
      change (grid 0 (S j')) with (GoInt.add (grid 0 j') (Mgq j')).
      cbv beta.
      rewrite E. split; [exact Hb'|reflexivity].
  - induction j as [|j' IHj]; intros Hi Hj.
    + destruct (IHi 0 ltac:(lia) Hj) as [Hb _].
      destruct (add_exact (i' + 0) (grid i' 0) (Mrg i') ltac:(lia) Hb
                  (Mrg_within i' ltac:(lia))) as [E Hb'].
      change (grid (S i') 0) with (GoInt.add (grid i' 0) (Mrg i')).
      cbv beta.
      rewrite E. split; [exact Hb'|reflexivity].
    + destruct (IHi j' ltac:(lia) ltac:(lia)) as [Hbd _].
      destruct (IHi (S j') ltac:(lia) ltac:(lia)) as [Hbu _].
      destruct (IHj Hi ltac:(lia)) as [Hbl _].
      assert (0 <= B)%Z as HB
        by (pose proof (Mrg_within i' ltac:(lia)); lia).
      assert (Z.of_nat (S i' + S j') * B
              = Z.of_nat (i' + j') * B + B + B)%Z as E2 by lia.
      assert (Z.of_nat (i' + S j') * B = Z.of_nat (i' + j') * B + B)%Z
        as E1 by lia.
      assert (Z.of_nat (S i' + j') * B = Z.of_nat (i' + j') * B + B)%Z
        as E1' by lia.
      destruct (add_exact (i' + j') (grid i' j') (Mrq i' j') ltac:(lia) Hbd
                  (Mrq_within i' j' ltac:(lia) ltac:(lia))) as [Ed Hd].
      destruct (add_exact (i' + S j') (grid i' (S j')) (Mrg i') ltac:(lia)
                  Hbu (Mrg_within i' ltac:(lia))) as [Eu Hu].
      destruct (add_exact (S i' + j') (grid (S i') j') (Mgq j') ltac:(lia)
                  Hbl (Mgq_within j' ltac:(lia))) as [El Hl].
      change (grid (S i') (S j'))
        with (max (GoInt.add (grid i' j') (Mrq i' j'))
                (GoInt.add (grid i' (S j')) (Mrg i'))
                (GoInt.add (grid (S i') j') (Mgq j'))).
      cbv beta.
      rewrite Ed, Eu, El. unfold max. split; [|reflexivity].
      replace (S i' + S j') with (S (S i' + j')) by lia.
      replace (S (i' + S j')) with (S (S i' + j')) in Hu by lia.
      assert (Z.of_nat (S (i' + j')) * B <= Z.of_nat (S (S i' + j')) * B)%Z
        by (apply Z.mul_le_mono_nonneg_r; lia).
      lia.
Qed.
(** No alignment scores more than the cell. *)
Lemma path_score_le ms : forall i j s,
  i <= length rSeq -> j <= length qSeq ->
  path_score a index rSeq qSeq i j ms = Some s -> (s <= grid i j)%Z.
Proof.
  induction ms as [|m ms IH]; intros i j s Hi Hj H; simpl in H.
  - destruct i, j; simpl in H; try discriminate.
    injection H as <-. simpl. lia.
  - destruct m.
    + destruct i as [|i']; [discriminate|]. destruct j as [|j']; [discriminate|].
      destruct (path_score a index rSeq qSeq i' j' ms) as [s'|] eqn:E;
        [|discriminate].
      simpl in H. injection H as <-.
      pose proof (IH i' j' s' ltac:(lia) ltac:(lia) E).
      destruct (grid_exact (S i') (S j') Hi Hj) as [_ ->]. lia.
    + destruct i as [|i']; [discriminate|].
      destruct (path_score a index rSeq qSeq i' j ms) as [s'|] eqn:E;
        [|discriminate].
      simpl in H. injection H as <-.
      pose proof (IH i' j s' ltac:(lia) Hj E).
      destruct j as [|j']; destruct (grid_exact (S i') _ Hi Hj) as [_ ->]; lia.
    + destruct j as [|j']; [discriminate|].
      destruct (path_score a index rSeq qSeq i j' ms) as [s'|] eqn:E;
        [|discriminate].
      simpl in H. injection H as <-.
      pose proof (IH i j' s' Hi ltac:(lia) E).
      destruct i as [|i']; destruct (grid_exact _ (S j') Hi Hj) as [_ ->]; lia.
Qed.

(** Some alignment scores what the cell holds. *)
Lemma path_score_attained i : forall j,
  i <= length rSeq -> j <= length qSeq ->
  exists ms, path_score a index rSeq qSeq i j ms = Some (grid i j).
Proof.
  induction i as [|i' IHi].
  - induction j as [|j' IHj]; intros Hi Hj.
    + exists []. reflexivity.
    + destruct (IHj Hi ltac:(lia)) as [ms Hms].
      exists (left :: ms). cbn [path_score]. rewrite Hms. cbn [option_map]. f_equal.
      destruct (grid_exact 0 (S j') Hi Hj) as [_ ->]. lia.
  - induction j as [|j' IHj]; intros Hi Hj.
    + destruct (IHi 0 ltac:(lia) Hj) as [ms Hms].
      exists (up :: ms). cbn [path_score]. rewrite Hms. cbn [option_map]. f_equal.
      destruct (grid_exact (S i') 0 Hi Hj) as [_ ->]. lia.
    + destruct (grid_exact (S i') (S j') Hi Hj) as [_ E].
      destruct (IHi j' ltac:(lia) ltac:(lia)) as [md Hmd].
      destruct (IHi (S j') ltac:(lia) ltac:(lia)) as [mu Hmu].
      destruct (IHj Hi ltac:(lia)) as [ml Hml].
      destruct (Z.max_spec (grid i' j' + Mrq i' j')
                  (Z.max (grid i' (S j') + Mrg i') (grid (S i') j' + Mgq j')))
        as [[_ E1]|[_ E1]].
      * destruct (Z.max_spec (grid i' (S j') + Mrg i')
                    (grid (S i') j' + Mgq j')) as [[_ E2]|[_ E2]].
        -- exists (left :: ml). cbn [path_score]. rewrite Hml. cbn [option_map].
           f_equal. rewrite E, E1, E2. lia.
        -- exists (up :: mu). cbn [path_score]. rewrite Hmu. cbn [option_map].
           f_equal. rewrite E, E1, E2. lia.
      * exists (diag :: md). cbn [path_score]. rewrite Hmd. cbn [option_map].
        f_equal. rewrite E, E1. lia.
Qed.
End Optimal.

(** With a validated matrix whose entries are all within [B] of zero, and
    [(r + c) * B] within the program's integers, the last cell of the grid
    that was built is the best score of an alignment of the two sequences:
    no alignment scores more, and one scores exactly that. *)
Theorem grid_holds_best_score a index rSeq qSeq G B :
  check_rows (gap_of a) a = Ret tt ->
  build_table a index rSeq qSeq = Ret G ->
  entries_within a B ->
  (Z.of_nat (length rSeq + length qSeq) * B < GoInt.half)%Z ->
  (forall ms s,
     path_score a index rSeq qSeq (length rSeq) (length qSeq) ms = Some s ->
     (s <= G_at (length qSeq + 1) G (length rSeq) (length qSeq))%Z) /\
  (exists ms,
     path_score a index rSeq qSeq (length rSeq) (length qSeq) ms
     = Some (G_at (length qSeq + 1) G (length rSeq) (length qSeq))).
Proof.
  intros Hok Hb Hwithin Hroom. apply check_rows_square in Hok.
  pose proof (build_table_valid _ _ _ _ _ Hok Hb) as Hvalid.
  destruct (build_table_grid_spec _ _ _ _ _ Hok Hb) as [_ Hg].
  rewrite Hg by lia. split.
  - intros ms s. now apply (path_score_le a index rSeq qSeq B).
  - now apply (path_score_attained a index rSeq qSeq B).
Qed.

Lemma grid_holds_best_score_witness :
  exists ms,
    path_score (simple_matrix 1 0 (-1)) dna_index (letters "AC") (letters "A")
      (length (letters "AC")) (length (letters "A")) ms
    = Some (G_at (length (letters "A") + 1) [0; -1; -1; 1; -2; 0]%Z
              (length (letters "AC")) (length (letters "A"))).
Proof.
  apply (grid_holds_best_score (simple_matrix 1 0 (-1)) dna_index
           (letters "AC") (letters "A") [0; -1; -1; 1; -2; 0]%Z 1%Z).
  - reflexivity.
  - reflexivity.
  - repeat constructor; lia.
  - reflexivity.
Defined.

(** ** The score returned is the best *)

(** With a matrix whose entries are all within [B] of zero and [(r + c) * B]
    within the program's integers, the scores of the segments the call
    returns add up to the best score of an alignment of the two sequences:
    no alignment scores more, and one scores exactly that. *)
Theorem returned_score_is_best fuel a rSeq qSeq alpha segs B :
  alignLetters fuel a rSeq qSeq alpha = Ret segs ->
  entries_within a B ->
  (Z.of_nat (length rSeq + length qSeq) * B < GoInt.half)%Z ->
  (forall ms s,
     path_score a (LetterIndex alpha) rSeq qSeq (length rSeq) (length qSeq) ms
     = Some s ->
     (s <= GoInt.sum (scores segs))%Z) /\
  (exists ms,
     path_score a (LetterIndex alpha) rSeq qSeq (length rSeq) (length qSeq) ms
     = Some (GoInt.sum (scores segs))).
Proof.
  intros H Hwithin Hroom. apply alignLetters_Ret in H
    as (Hsq & G & st & emitted & Hb & Ht & He & ->).
  pose proof (build_table_valid _ _ _ _ _ Hsq Hb) as Hvalid.
  destruct (build_table_grid_spec _ _ _ _ _ Hsq Hb) as [_ Hg].
  pose proof (tb_init_inv _ _ _ _ _ Hsq Hb) as H0.
  destruct (traceback_inv _ _ _ _ _ _ _ _ _ _ _ _ H0 Ht) as [Hinv Hend].
  assert (GoInt.sum (scores (reverse emitted))
          = grid_spec a (LetterIndex alpha) rSeq qSeq
              (length rSeq) (length qSeq)) as ->.
  { rewrite <- Hg by lia.
    eapply emit_tail_spec; [exact Hinv|exact Hend| |exact He].
    rewrite Hg by lia. reflexivity. }
  split.
  - intros ms s. now apply (path_score_le a (LetterIndex alpha) rSeq qSeq B).
  - now apply (path_score_attained a (LetterIndex alpha) rSeq qSeq B).
Qed.

Lemma returned_score_is_best_witness :
  exists ms,
    path_score (simple_matrix 1 0 (-1)) (LetterIndex DNA) (letters "AC")
      (letters "A") (length (letters "AC")) (length (letters "A")) ms
    = Some (GoInt.sum
              (scores [seg 0 1 0 1 1; seg 1 2 1 1 (-1); seg 2 2 1 1 0])).
Proof.
  apply (returned_score_is_best 3 (simple_matrix 1 0 (-1)) (letters "AC")
           (letters "A") DNA
           [seg 0 1 0 1 1; seg 1 2 1 1 (-1); seg 2 2 1 1 0] 1%Z).
  - reflexivity.
  - repeat constructor; lia.
  - reflexivity.
Defined.

(** ** Reverse complement *)

Module NucleicFacts.
Import Nucleic.

(** Closes equations between the same letters, differently bracketed. *)
Ltac same_letters :=
  repeat (rewrite <- app_assoc || (progress cbn [app])); reflexivity.

Lemma complement_at_not_covered mem complement l :
  ~ covered complement l ->
  complement_at mem complement l = Panic IndexOutOfRange.
Proof.
  unfold covered, complement_at, get. intros H.
  destruct (Z.ltb_spec (Z.of_nat (nat_of_ascii l)) 0); [reflexivity|].
  destruct (Z.leb_spec (Z.of_nat (len complement))
              (Z.of_nat (nat_of_ascii l))); [reflexivity|lia].
Qed.

Lemma covered_dec complement l :
  covered complement l \/ ~ covered complement l.
Proof. unfold covered. lia. Qed.

Lemma map_reverse {A B : Type} (f : A -> B) (l : list A) :
  map f (reverse l) = reverse (map f l).
Proof.
  induction l as [|x l IH]; [reflexivity|].
  simpl. rewrite !reverse_cons, map_app, IH. reflexivity.
Qed.

(** The memory around the slice [s]: [P] before it, [Q] after it, and a
    table whose entries no write to [s] changes. *)
Section Window.
Variables (P Q : Letters) (s complement : slice) (tab : Letter -> Letter).
Hypothesis Hbase : base s = length P.
Hypothesis Htab : forall X l,
  length X = len s -> covered complement l ->
  complement_at (P ++ X ++ Q) complement l = Ret (tab l).

Local Abbreviation cov := (covered complement).

Lemma get_window (X xs : Letters) x ys k :
  X = xs ++ x :: ys -> length X = len s -> k = Z.of_nat (length xs) ->
  get (P ++ X ++ Q) s k = Ret x.
Proof.
  intros -> Hlen ->. unfold get, letter_at.
  rewrite length_app in Hlen. simpl in Hlen.
  destruct (Z.ltb_spec (Z.of_nat (length xs)) 0); [lia|].
  destruct (Z.leb_spec (Z.of_nat (len s)) (Z.of_nat (length xs))); [lia|].
  cbn [orb]. rewrite Nat2Z.id, Hbase.
  replace (P ++ (xs ++ x :: ys) ++ Q) with ((P ++ xs) ++ x :: (ys ++ Q))
    by same_letters.
  rewrite list_lookup_middle by (rewrite length_app; reflexivity).
  reflexivity.
Qed.

Lemma set_window (X xs : Letters) x ys k l :
  X = xs ++ x :: ys -> length X = len s -> k = Z.of_nat (length xs) ->
  set (P ++ X ++ Q) s k l = Ret (P ++ (xs ++ l :: ys) ++ Q).
Proof.
  intros -> Hlen ->. unfold set.
  rewrite length_app in Hlen. simpl in Hlen.
  destruct (Z.ltb_spec (Z.of_nat (length xs)) 0); [lia|].
  destruct (Z.leb_spec (Z.of_nat (len s)) (Z.of_nat (length xs))); [lia|].
  cbn [orb]. rewrite Nat2Z.id, Hbase.
  replace (P ++ (xs ++ x :: ys) ++ Q) with ((P ++ xs) ++ x :: (ys ++ Q))
    by same_letters.
  replace (P ++ (xs ++ l :: ys) ++ Q) with ((P ++ xs) ++ l :: (ys ++ Q))
    by same_letters.
  destruct (Nat.ltb_spec (length P + length xs)
              (length ((P ++ xs) ++ x :: ys ++ Q))) as [_|Hge].
  - f_equal. pose proof (insert_app_r (P ++ xs) (x :: ys ++ Q) 0 l) as E.
    rewrite Nat.add_0_r, length_app in E. exact E.
  - rewrite !length_app in Hge. simpl in Hge. lia.
Qed.

(** The loop and the middle step, from a slice whose ends are done: the
    part between [i] and [j] is reversed and complemented, or a letter of
    it without an entry in the table makes the access panic. *)
Lemma revComp_from fuel : forall (xs m ys : Letters) i j,
  length m <= fuel ->
  length xs + length m + length ys = len s ->
  i = Z.of_nat (length xs) ->
  j = (i + Z.of_nat (length m) - 1)%Z ->
  (Forall cov m ->
   (out <- revComp_loop fuel (P ++ (xs ++ m ++ ys) ++ Q) s complement i j ;;
    revComp_middle (fst (fst out)) s complement (snd (fst out)) (snd out))
   = Ret (P ++ (xs ++ reverse (map tab m) ++ ys) ++ Q)) /\
  (~ Forall cov m ->
   (out <- revComp_loop fuel (P ++ (xs ++ m ++ ys) ++ Q) s complement i j ;;
    revComp_middle (fst (fst out)) s complement (snd (fst out)) (snd out))
   = Panic IndexOutOfRange).
Proof.
  induction fuel as [|fuel IH]; intros xs m ys i j Hfuel Hlen Hi Hj.
  - destruct m; [|simpl in Hfuel; lia]. simpl in Hj. cbn [revComp_loop].
    destruct (Z.ltb_spec i j) as [Hlt|_]; [lia|]. cbn [bind fst snd].
    unfold revComp_middle. destruct (Z.eqb_spec i j) as [E|_]; [lia|].
    split; [reflexivity|]. intros HF. exfalso. apply HF. constructor.
  - destruct m as [|x m].
    { simpl in Hj. cbn [revComp_loop].
      destruct (Z.ltb_spec i j) as [Hlt|_]; [lia|]. cbn [bind fst snd].
      unfold revComp_middle. destruct (Z.eqb_spec i j) as [E|_]; [lia|].
      split; [reflexivity|]. intros HF. exfalso. apply HF. constructor. }
    revert Hfuel Hlen Hj.
    destruct m as [|y m' _] using rev_ind; intros Hfuel Hlen Hj.
    { (* one letter: the middle step *)
      simpl in Hj, Hlen. cbn [revComp_loop].
      destruct (Z.ltb_spec i j) as [Hlt|_]; [lia|]. cbn [bind fst snd].
      unfold revComp_middle. destruct (Z.eqb_spec i j) as [_|N]; [|lia].
      rewrite (get_window (xs ++ [x] ++ ys) xs x ys i)
        by (first [reflexivity | assumption
                  | rewrite !length_app; simpl; lia]).
      cbn [bind].
      destruct (covered_dec complement x) as [Hx|Hx].
      - rewrite Htab by (first [assumption | rewrite !length_app; simpl; lia]).
        cbn [bind].
        rewrite (set_window (xs ++ [x] ++ ys) xs x ys i)
          by (first [reflexivity | assumption
                    | rewrite !length_app; simpl; lia]).
        split; [reflexivity|]. intros HF. exfalso. apply HF.
        now repeat constructor.
      - rewrite (complement_at_not_covered _ _ _ Hx). cbn [bind].
        split; [|reflexivity]. intros HF. exfalso.
        apply Hx. now inversion HF. }
    (* two letters or more: one turn of the loop *)
    assert (length (x :: m' ++ [y]) = length m' + 2) as El
      by (simpl; rewrite length_app; simpl; lia).
    rewrite El in Hfuel, Hj, Hlen.
    assert (length (xs ++ (x :: m' ++ [y]) ++ ys) = len s) as HX
      by (rewrite !length_app, El; lia).
    cbn [revComp_loop]. destruct (Z.ltb_spec i j) as [_|N]; [|lia].
    rewrite (get_window (xs ++ (x :: m' ++ [y]) ++ ys) (xs ++ x :: m') y ys j)
      by (first [same_letters | assumption
                | rewrite length_app; simpl; lia]).
    cbn [bind].
    destruct (covered_dec complement y) as [Hy|Hy].
    2:{ rewrite (complement_at_not_covered _ _ _ Hy). cbn [bind].
        split; [|reflexivity]. intros HF. exfalso. apply Hy.
        inversion HF as [|? ? _ H']. apply Forall_app in H' as [_ H'].
        now inversion H'. }
    rewrite (Htab _ _ HX Hy). cbn [bind].
    rewrite (get_window (xs ++ (x :: m' ++ [y]) ++ ys) xs x (m' ++ y :: ys) i)
      by (first [same_letters | assumption]).
    cbn [bind].
    destruct (covered_dec complement x) as [Hx|Hx].
    2:{ rewrite (complement_at_not_covered _ _ _ Hx). cbn [bind].
        split; [|reflexivity]. intros HF. exfalso. apply Hx.
        now inversion HF. }
    rewrite (Htab _ _ HX Hx). cbn [bind].
    rewrite (set_window (xs ++ (x :: m' ++ [y]) ++ ys) xs x (m' ++ y :: ys) i)
      by (first [same_letters | assumption]).
    cbn [bind].
    assert (length (xs ++ tab y :: m' ++ y :: ys) = len s) as HX1
      by (rewrite !length_app; simpl; rewrite length_app; simpl; lia).
    rewrite (set_window (xs ++ tab y :: m' ++ y :: ys)
               (xs ++ tab y :: m') y ys j)
      by (first [same_letters | assumption
                | rewrite length_app; simpl; lia]).
    cbn [bind].
    replace (P ++ ((xs ++ tab y :: m') ++ tab x :: ys) ++ Q)
      with (P ++ ((xs ++ [tab y]) ++ m' ++ (tab x :: ys)) ++ Q)
      by (f_equal; f_equal; same_letters).
    destruct (IH (xs ++ [tab y]) m' (tab x :: ys) (i + 1)%Z (j - 1)%Z)
      as [IHok IHbad];
      [lia|rewrite length_app; simpl; lia
      |rewrite length_app; simpl; lia|lia|].
    split.
    + intros HF. inversion HF as [|? ? _ H'].
      apply Forall_app in H' as [Hm _].
      rewrite (IHok Hm). f_equal. f_equal. f_equal.
      change (map tab (x :: m' ++ [y])) with (tab x :: map tab (m' ++ [y])).
      rewrite map_app. cbn [map].
      rewrite reverse_cons, reverse_snoc. same_letters.
    + intros HF. apply IHbad. intros Hm. apply HF.
      constructor; [exact Hx|]. apply Forall_app. split; [exact Hm|].
      now repeat constructor.
Qed.
End Window.

(** *** The slice inside the memory *)

Lemma memory_around mem s :
  mem = firstn (base s) mem ++ view mem s ++ skipn (base s + len s) mem.
Proof.
  unfold view. rewrite <- (drop_drop mem (len s) (base s)).
  rewrite (take_drop (len s)), (take_drop (base s)). reflexivity.
Qed.

Lemma length_before mem s :
  within mem s -> length (firstn (base s) mem) = base s.
Proof. unfold within. intros H. rewrite length_take. lia. Qed.

Lemma length_view mem s :
  within mem s -> length (view mem s) = len s.
Proof.
  unfold within, view. intros H. rewrite length_take, length_drop. lia.
Qed.

Lemma length_with_view mem s X :
  within mem s -> length X = len s -> length (with_view mem s X) = length mem.
Proof.
  unfold with_view. intros H HX. pose proof (length_before mem s H) as Hb.
  unfold within in H. rewrite !length_app, Hb, HX, length_drop. lia.
Qed.

Lemma view_with_view mem s X :
  within mem s -> length X = len s -> view (with_view mem s X) s = X.
Proof.
  intros H HX. unfold view, with_view.
  rewrite drop_app_length' by (symmetry; exact (length_before mem s H)).
  apply take_app_length'. symmetry. exact HX.
Qed.

Lemma with_view_again mem s X Y :
  within mem s -> length X = len s ->
  with_view (with_view mem s X) s Y = with_view mem s Y.
Proof.
  intros H HX. unfold with_view at 1 3.
  f_equal; [|f_equal].
  - unfold with_view.
    apply take_app_length'. symmetry. exact (length_before mem s H).
  - unfold with_view.
    rewrite <- (drop_drop _ (len s) (base s)).
    rewrite drop_app_length' by (symmetry; exact (length_before mem s H)).
    rewrite drop_app_length' by (symmetry; exact HX).
    reflexivity.
Qed.

(** A write to [s] leaves the letters of a slice apart from [s] as they
    were. *)
Lemma lookup_apart mem s t X n :
  within mem s -> apart s t -> length X = len s -> n < len t ->
  with_view mem s X !! (base t + n) = mem !! (base t + n).
Proof.
  intros H Hap HX Hn. pose proof (length_before mem s H) as Hb.
  unfold with_view. destruct Hap as [Hst|Hts].
  - rewrite lookup_app_r by lia. rewrite Hb.
    rewrite lookup_app_r by lia. rewrite HX.
    rewrite lookup_drop. f_equal. lia.
  - rewrite lookup_app_l by lia. rewrite lookup_take.
    destruct (decide (base t + n < base s)) as [_|N]; [reflexivity|lia].
Qed.

Lemma comp_apart mem s complement X l :
  within mem s -> apart s complement -> length X = len s ->
  covered complement l ->
  comp (with_view mem s X) complement l = comp mem complement l.
Proof.
  intros H Hap HX Hl. unfold comp.
  now rewrite (lookup_apart mem s complement X _ H Hap HX Hl).
Qed.

Lemma complement_at_apart mem s complement X l :
  within mem s -> within mem complement -> apart s complement ->
  length X = len s -> covered complement l ->
  complement_at (with_view mem s X) complement l = Ret (comp mem complement l).
Proof.
  intros H Hc Hap HX Hl. unfold complement_at, get, letter_at.
  unfold covered in Hl.
  destruct (Z.ltb_spec (Z.of_nat (nat_of_ascii l)) 0); [lia|].
  destruct (Z.leb_spec (Z.of_nat (len complement))
              (Z.of_nat (nat_of_ascii l))); [lia|].
  cbn [orb]. rewrite Nat2Z.id.
  rewrite (lookup_apart mem s complement X _ H Hap HX Hl).
  unfold comp, within in *.
  destruct (lookup_lt_is_Some_2 mem (base complement + nat_of_ascii l))
    as [v Hv]; [lia|].
  rewrite Hv. reflexivity.
Qed.

Lemma revComp_outcome mem s complement :
  within mem s -> within mem complement -> apart s complement ->
  (Forall (covered complement) (view mem s) ->
   revComp mem s complement
   = Ret (with_view mem s (reverse (map (comp mem complement) (view mem s)))))
  /\
  (~ Forall (covered complement) (view mem s) ->
   revComp mem s complement = Panic IndexOutOfRange).
Proof.
  intros H Hc Hap. unfold revComp.
  pose proof (length_view mem s H) as Hv.
  destruct (revComp_from (firstn (base s) mem) (skipn (base s + len s) mem)
              s complement (comp mem complement)
              (eq_sym (length_before mem s H))
              (fun X l HX Hl =>
                 complement_at_apart mem s complement X l H Hc Hap HX Hl)
              (len s) [] (view mem s) [] 0%Z (Z.of_nat (len s) - 1)%Z)
    as [Hok Hbad]; [lia|simpl; lia|reflexivity|lia|].
  cbn [app] in Hok, Hbad. rewrite (app_nil_r (view mem s)) in Hok, Hbad.
  rewrite <- (memory_around mem s) in Hok, Hbad.
  split; intros HF.
  - rewrite (Hok HF), app_nil_r. reflexivity.
  - exact (Hbad HF).
Qed.

(** [revComp] on a slice [s] of the memory and a complement table stored
    apart from it: the letters of [s] come back in reverse order, each
    replaced by its entry in the table, and the memory outside [s] is
    left as it was, when the table has an entry for every letter of [s];
    without an entry for some letter the access panics, out of range. *)
Theorem revComp_reverses_and_complements mem s complement :
  within mem s -> within mem complement -> apart s complement ->
  (Forall (covered complement) (view mem s) ->
   revComp mem s complement
   = Ret (with_view mem s (reverse (map (comp mem complement) (view mem s)))))
  /\
  (~ Forall (covered complement) (view mem s) ->
   revComp mem s complement = Panic IndexOutOfRange).
Proof. exact (revComp_outcome mem s complement). Qed.

Lemma revComp_reverses_and_complements_witness :
  revComp (letters "ACGGT" ++ dna_complement) (mkSlice 0 5) (mkSlice 5 256)
  = Ret (letters "ACCGT" ++ dna_complement).
Proof.
  refine (proj1 (revComp_reverses_and_complements
                   (letters "ACGGT" ++ dna_complement)
                   (mkSlice 0 5) (mkSlice 5 256) _ _ _) _).
  - unfold within. vm_compute. lia.
  - unfold within. vm_compute. lia.
  - left. simpl. lia.
  - repeat constructor; unfold covered; vm_compute; lia.
Defined.

(** When the slice is its own table the writes change the table under
    the loop: the bytes 2, 0, 1 come back as 0, 0, 1, where the reverse
    of their entries would be 0, 2, 1. *)
Lemma revComp_on_its_own_table :
  revComp bytes_2_0_1 (mkSlice 0 3) (mkSlice 0 3)
  = Ret [ascii_of_nat 0; ascii_of_nat 0; ascii_of_nat 1] /\
  reverse (map (comp bytes_2_0_1 (mkSlice 0 3)) bytes_2_0_1)
  = [ascii_of_nat 0; ascii_of_nat 2; ascii_of_nat 1].
Proof. split; reflexivity. Qed.

(** With a table of 256 entries, stored apart from the slice, that is its
    own inverse on the letters of the slice, reverse-complementing twice
    gives the memory back. *)
Theorem revComp_twice mem s complement :
  within mem s -> within mem complement -> apart s complement ->
  len complement = 256 ->
  Forall (fun l => comp mem complement (comp mem complement l) = l)
    (view mem s) ->
  exists mem',
    revComp mem s complement = Ret mem' /\
    revComp mem' s complement = Ret mem.
Proof.
  intros H Hc Hap Hlen Hinv.
  assert (forall l, covered complement l) as Hcov.
  { intros l. unfold covered. rewrite Hlen. apply nat_ascii_bounded. }
  assert (forall t : Letters, Forall (covered complement) t) as Hall.
  { intros t. apply Forall_forall. intros l _. apply Hcov. }
  set (X := reverse (map (comp mem complement) (view mem s))).
  assert (length X = len s) as HX.
  { unfold X. rewrite length_reverse, length_map. exact (length_view mem s H). }
  exists (with_view mem s X). split.
  - exact (proj1 (revComp_outcome mem s complement H Hc Hap) (Hall _)).
  - assert (within (with_view mem s X) s) as H'.
    { unfold within. rewrite (length_with_view mem s X H HX). exact H. }
    assert (within (with_view mem s X) complement) as Hc'.
    { unfold within. rewrite (length_with_view mem s X H HX). exact Hc. }
    rewrite (proj1 (revComp_outcome (with_view mem s X) s complement
                      H' Hc' Hap) (Hall _)).
    f_equal. rewrite (with_view_again mem s X _ H HX).
    rewrite (view_with_view mem s X H HX).
    rewrite (map_ext _ (comp mem complement)
               (fun l => comp_apart mem s complement X l H Hap HX (Hcov l))).
    unfold X. rewrite map_reverse, reverse_involutive, map_map.
    replace (map (fun l => comp mem complement (comp mem complement l))
               (view mem s)) with (view mem s).
    + symmetry. exact (memory_around mem s).
    + clear -Hinv. induction Hinv as [|l t Hl _ IH]; [reflexivity|].
      simpl. now rewrite Hl, <- IH.
Qed.

Lemma revComp_twice_witness :
  exists mem',
    revComp (letters "ACGGT" ++ dna_complement) (mkSlice 0 5) (mkSlice 5 256)
    = Ret mem' /\
    revComp mem' (mkSlice 0 5) (mkSlice 5 256)
    = Ret (letters "ACGGT" ++ dna_complement).
Proof.
  apply (revComp_twice (letters "ACGGT" ++ dna_complement)
           (mkSlice 0 5) (mkSlice 5 256)).
  - unfold within. vm_compute. lia.
  - unfold within. vm_compute. lia.
  - left. simpl. lia.
  - reflexivity.
  - repeat constructor.
Defined.
End NucleicFacts.
